(** * proto-client-generator: a shallow embedding of cmd/root.go and util/util.go

    The Go program is modelled as follows.
    - A filesystem is a finite map from absolute paths (lists of path
      components) to nodes, a regular file with its bytes or a directory.
    - Every effect of the program (filesystem calls, subprocesses, logging)
      runs in a small monad [M] that threads the filesystem and an event
      trace, reads an environment [Env] of the outside world, and ends either
      in a value or in a process exit ([log.Fatalf] is [os.Exit(1)]).
    - Go [error] values are [option string] ([None] is [nil]). *)

From Stdlib Require Import String Ascii ZArith Sorting.Permutation.
From stdpp Require Import base list gmap strings.

Open Scope list_scope.

(* ------------------------------------------------------------------ *)
(** ** Strings and paths *)

Definition path := list string.

(** Go's [filepath.Ext]: the suffix from the last '.' of the final path
    element, or "" when that element has no dot. *)
Fixpoint ext_rev (rl : list ascii) (acc : list ascii) : string :=
  match rl with
  | [] => EmptyString
  | c :: rl' =>
      if Ascii.eqb c "/"%char then EmptyString
      else if Ascii.eqb c "."%char then string_of_list_ascii (c :: acc)
      else ext_rev rl' (c :: acc)
  end.

Definition Ext (name : string) : string :=
  ext_rev (rev (list_ascii_of_string name)) [].

Definition proto_ext : string := ".proto".

(** Splitting a Go path string at '/' into its components. *)
Fixpoint split_slash_aux (l : list ascii) (cur : list ascii) : list string :=
  match l with
  | [] => [string_of_list_ascii (rev cur)]
  | c :: l' =>
      if Ascii.eqb c "/"%char then string_of_list_ascii (rev cur) :: split_slash_aux l' []
      else split_slash_aux l' (c :: cur)
  end.

Definition split_slash (s : string) : list string :=
  split_slash_aux (list_ascii_of_string s) [].

(** One step of [filepath.Clean] on an absolute path: "" and "." vanish,
    ".." goes up (and stays at the root), any other name is appended. *)
Definition clean_step (p : path) (c : string) : path :=
  if String.eqb c "" then p
  else if String.eqb c "." then p
  else if String.eqb c ".." then removelast p
  else p ++ [c].

(** Go's [filepath.Join(base, elems...)] for an absolute, clean [base]:
    the elements are concatenated with '/' and the result is cleaned. *)
Definition join (base : path) (elems : list string) : path :=
  fold_left clean_step (concat (map split_slash elems)) base.

(** A path as the string a subprocess receives. *)
Definition path_to_string (p : path) : string :=
  String.append "/" (String.concat "/" p).

(** A name as [os.ReadDir] can return it: not empty, not "." or "..",
    without a separator. *)
Definition normalb (n : string) : bool :=
  negb (String.eqb n "") && negb (String.eqb n ".") && negb (String.eqb n "..")
  && negb (existsb (fun c => Ascii.eqb c "/"%char) (list_ascii_of_string n)).

(* ------------------------------------------------------------------ *)
(** ** Filesystem *)

Inductive node :=
| File (data : list Byte.byte)
| Dir.

Abbreviation FS := (gmap path node).

(** Splits a path into its parent and its last component. *)
Definition split_last (k : path) : option (path * string) :=
  match rev k with
  | [] => None
  | n :: r => Some (rev r, n)
  end.

(** The names of the entries directly inside directory [p]. *)
Definition children (fs : FS) (p : path) : list string :=
  omap (fun k => match split_last k with
                 | Some (q, n) => if decide (q = p) then Some n else None
                 | None => None
                 end) (map fst (map_to_list fs)).

Fixpoint insert_sorted (n : string) (l : list string) : list string :=
  match l with
  | [] => [n]
  | m :: l' => if String.leb n m then n :: m :: l' else m :: insert_sorted n l'
  end.

Fixpoint sort_names (l : list string) : list string :=
  match l with
  | [] => []
  | n :: l' => insert_sorted n (sort_names l')
  end.

(** [os.ReadDir] lists a directory sorted by file name. *)
Definition dir_listing (fs : FS) (p : path) : list string :=
  sort_names (children fs p).

Definition prefixb (p k : path) : bool :=
  bool_decide (firstn (length p) k = p).

(* ------------------------------------------------------------------ *)
(** ** The outside world *)

(** The result of running a subprocess: it could not be started, or it ran
    to its exit status, leaving the filesystem it produced and its output
    streams. *)
Inductive proc_result :=
| StartFailed (err : string)
| Exited (status : Z) (fs' : FS) (stdout stderr : list Byte.byte).

Record Env := {
  temp_dir : path;                      (* os.TempDir() *)
  temp_suffix : string;                 (* the random part os.MkdirTemp picks *)
  getwd : option path;                  (* os.Getwd() *)
  exec : string -> list string -> FS -> proc_result;
  readdir_denied : path -> bool;
  open_denied : path -> bool;
  create_denied : path -> bool;
  mkdir_denied : path -> bool;
  remove_denied : path -> bool;
  (* [Some n]: reading this source fails after [n] bytes were copied *)
  copy_fault : path -> option nat
}.

(** Events recorded in the trace.  The three validation calls are recorded
    too, so that their order against the effects can be stated. *)
Inductive event :=
| EGateLanguage (l : string)
| EGatePublic (s : string)
| EGatePrivate (s : string)
| EMkdirTemp (dir : path) (created : option path)
| EMkdir (p : path)
| EReadDir (p : path)
| EOpen (p : path)
| ECreate (p : path)
| ECopy (dst src : path)
| EGetwd
| ERemoveAll (p : path)
| EExec (prog : string) (args : list string)
| ECleanUp (dir : path)
| ELog (msg : string).

Definition is_gate (e : event) : bool :=
  match e with
  | EGateLanguage _ | EGatePublic _ | EGatePrivate _ => true
  | _ => false
  end.

Definition is_log (e : event) : bool :=
  match e with ELog _ => true | _ => false end.

Record St := mkSt { st_fs : FS; st_trace : list event }.

Inductive outcome (A : Type) :=
| Ret (a : A)
| Exit (code : Z).
Arguments Ret {A} a.
Arguments Exit {A} code.

Definition M (A : Type) := Env -> St -> outcome A * St.

Definition ret {A} (a : A) : M A := fun _ s => (Ret a, s).

Definition bind {A B} (m : M A) (k : A -> M B) : M B :=
  fun env s => match m env s with
               | (Ret a, s') => k a env s'
               | (Exit c, s') => (Exit c, s')
               end.

Notation "'let!' x := m 'in' k" := (bind m (fun x => k))
  (at level 200, x name, m at level 100, k at level 200).
Notation "m ;; k" := (bind m (fun _ => k)) (at level 100, right associativity).

Definition emit (e : event) : M unit :=
  fun _ s => (Ret tt, mkSt (st_fs s) (st_trace s ++ [e])).

Definition get_fs : M FS := fun _ s => (Ret (st_fs s), s).

Definition put_fs (fs : FS) : M unit :=
  fun _ s => (Ret tt, mkSt fs (st_trace s)).

Definition ask : M Env := fun env s => (Ret env, s).

Definition logf (msg : string) : M unit := emit (ELog msg).

(** [log.Fatalf]: log, then [os.Exit(1)]; deferred calls do not run. *)
Definition fatal {A} (msg : string) : M A :=
  logf msg ;; (fun _ s => (Exit 1%Z, s)).

(** [defer d] over the rest [k] of a function body: [d] runs when [k]
    returns normally, not when the process exits. *)
Definition with_defer (d : M unit) (k : M unit) : M unit :=
  fun env s => match k env s with
               | (Ret _, s') => d env s'
               | (Exit c, s') => (Exit c, s')
               end.

Definition error := option string.

Inductive res (A : Type) :=
| Ok (a : A)
| Err (e : string).
Arguments Ok {A} a.
Arguments Err {A} e.

(* ------------------------------------------------------------------ *)
(** ** The [os] and [io] calls the program makes *)

Definition parent_is_dir (fs : FS) (p : path) : bool :=
  match split_last p with
  | Some (q, _) => match fs !! q with Some Dir => true | _ => false end
  | None => false
  end.

Definition is_dir (fs : FS) (p : path) : bool :=
  match fs !! p with Some Dir => true | _ => false end.

(** [os.ReadDir] *)
Definition os_ReadDir (p : path) : M (res (list string)) :=
  emit (EReadDir p) ;;
  let! env := ask in
  let! fs := get_fs in
  if readdir_denied env p then ret (Err "permission denied")
  else match fs !! p with
       | Some Dir => ret (Ok (dir_listing fs p))
       | Some (File _) => ret (Err "not a directory")
       | None => ret (Err "no such file or directory")
       end.

(** [os.Open]: a handle is the opened path. *)
Definition os_Open (p : path) : M (res path) :=
  emit (EOpen p) ;;
  let! env := ask in
  let! fs := get_fs in
  if open_denied env p then ret (Err "permission denied")
  else match fs !! p with
       | Some _ => ret (Ok p)
       | None => ret (Err "no such file or directory")
       end.

(** [os.Create]: creates or truncates a regular file. *)
Definition os_Create (p : path) : M (res path) :=
  emit (ECreate p) ;;
  let! env := ask in
  let! fs := get_fs in
  if create_denied env p then ret (Err "permission denied")
  else if negb (parent_is_dir fs p) then ret (Err "no such file or directory")
  else if is_dir fs p then ret (Err "is a directory")
  else put_fs (<[p := File []]> fs) ;; ret (Ok p).

(** Writing through a handle appends at the end of what was written so far;
    a handle whose file is gone writes nowhere visible. *)
Definition write_fs (fs : FS) (dst : path) (data : list Byte.byte) : FS :=
  match fs !! dst with
  | Some (File d) => <[dst := File (d ++ data)]> fs
  | _ => fs
  end.

Definition write_file (dst : path) (data : list Byte.byte) : M unit :=
  let! fs := get_fs in
  put_fs (write_fs fs dst data).

(** [io.Copy(dst, src)]: reading a directory fails at once; an injected
    fault fails after a prefix of the data was written. *)
Definition io_Copy (dst src : path) : M error :=
  emit (ECopy dst src) ;;
  let! env := ask in
  let! fs := get_fs in
  match fs !! src with
  | Some (File c) =>
      match copy_fault env src with
      | Some n => write_file dst (firstn n c) ;; ret (Some "input/output error")
      | None => write_file dst c ;; ret None
      end
  | Some Dir => ret (Some "is a directory")
  | None => ret (Some "file already closed")
  end.

(** [os.Mkdir] *)
Definition os_Mkdir (p : path) : M error :=
  emit (EMkdir p) ;;
  let! env := ask in
  let! fs := get_fs in
  if mkdir_denied env p then ret (Some "permission denied")
  else if negb (parent_is_dir fs p) then ret (Some "no such file or directory")
  else match fs !! p with
       | Some _ => ret (Some "file exists")
       | None => put_fs (<[p := Dir]> fs) ;; ret None
       end.

(** [os.MkdirTemp(dir, pattern)] *)
Definition os_MkdirTemp (dir : path) (pattern : string) : M (res path) :=
  let! env := ask in
  let! fs := get_fs in
  let name := dir ++ [String.append pattern (temp_suffix env)] in
  if mkdir_denied env name || negb (is_dir fs dir) || bool_decide (is_Some (fs !! name))
  then emit (EMkdirTemp dir None) ;; ret (Err "cannot create temporary directory")
  else put_fs (<[name := Dir]> fs) ;; emit (EMkdirTemp dir (Some name)) ;; ret (Ok name).

(** [os.Getwd] *)
Definition os_Getwd : M (res path) :=
  emit EGetwd ;;
  let! env := ask in
  match getwd env with
  | Some p => ret (Ok p)
  | None => ret (Err "getwd: no such file or directory")
  end.

(** [os.RemoveAll(p)]: every entry under [p] is removed except those whose
    removal is denied and their ancestors (a directory that is not empty
    cannot be removed); the call reports an error iff some removal was
    denied.  A path that does not exist is no error. *)
Definition removable (env : Env) (fs : FS) (p : path) : list path :=
  filter (fun k => prefixb p k && remove_denied env k) (map fst (map_to_list fs)).

Definition keep_after_remove (denied : list path) (p k : path) : bool :=
  negb (prefixb p k) || existsb (fun d => prefixb k d) denied.

Definition os_RemoveAll (p : path) : M error :=
  emit (ERemoveAll p) ;;
  let! env := ask in
  let! fs := get_fs in
  let denied := removable env fs p in
  put_fs (filter (fun kv => keep_after_remove denied p kv.1 = true) fs) ;;
  match denied with
  | [] => ret None
  | _ :: _ => ret (Some "permission denied")
  end.

(** [exec.Command(prog, args...)], started and waited for. *)
Definition exec_Cmd (prog : string) (args : list string)
  : M (res (Z * list Byte.byte * list Byte.byte)) :=
  emit (EExec prog args) ;;
  let! env := ask in
  let! fs := get_fs in
  match exec env prog args fs with
  | StartFailed e => ret (Err e)
  | Exited st fs' o e => put_fs fs' ;; ret (Ok (st, o, e))
  end.

(* ------------------------------------------------------------------ *)
(** ** util/util.go *)

Open Scope string_scope.

Definition LanguageGo : string := "golang".
Definition LanguageRuby : string := "ruby".
Definition LanguagePython : string := "python".
Definition LanguageJava : string := "java".
Definition LanguageJavascript : string := "javascript".

Definition ServiceAudit : string := "audit".
Definition ServiceAuthorization : string := "authorization".
Definition ServiceCatalog : string := "catalog".
Definition ServiceCategory : string := "category".
Definition ServiceDataspec : string := "dataspec".
Definition ServiceExports : string := "exports".
Definition ServiceGrants : string := "grants".
Definition ServiceJabba : string := "jabba".
Definition ServiceOrganizations : string := "organizations".
Definition ServiceParser : string := "parser".
Definition ServiceQuery : string := "query".
Definition ServiceReferences : string := "references".
Definition ServiceSearch : string := "search".
Definition ServiceSources : string := "sources".
Definition ServiceTaskrunner : string := "taskrunner".
Definition ServiceUploads : string := "uploads".
Definition ServiceWarehouses : string := "warehouses".

(** A Go [switch] on a string with one case listing several constants. *)
Definition switch_case (s : string) (cases : list string) : bool :=
  existsb (String.eqb s) cases.

Definition IsValidLanguage (lang : string) : bool :=
  switch_case lang [LanguageGo; LanguageRuby; LanguagePython; LanguageJava; LanguageJavascript].

Definition IsValidPublicService (s : string) : bool :=
  switch_case s [ServiceAuthorization; ServiceCatalog; ServiceCategory; ServiceDataspec;
                 ServiceExports; ServiceGrants; ServiceOrganizations; ServiceQuery;
                 ServiceReferences; ServiceSearch; ServiceSources; ServiceUploads;
                 ServiceWarehouses].

Definition IsValidPrivateService (s : string) : bool :=
  switch_case s [ServiceAudit; ServiceJabba; ServiceParser; ServiceCatalog; ServiceCategory;
                 ServiceExports; ServiceGrants; ServiceOrganizations; ServiceQuery;
                 ServiceReferences; ServiceSources; ServiceWarehouses; ServiceTaskrunner].

Definition CleanUpDirectories (dir : path) : M unit :=
  emit (ECleanUp dir) ;;
  let! err := os_RemoveAll dir in
  match err with
  | Some e => fatal ("Error: Could not remove directory: " ++ e)
  | None => ret tt
  end.

Definition CloneService (service : string) (dir : path) : M (res path) :=
  let src := join dir [service] in
  let! r := exec_Cmd "git" ["clone"; "git@github.com:asmahood/" ++ service ++ ".git";
                            path_to_string src] in
  match r with
  | Err e => ret (Err ("failed to clone service: " ++ e))
  | Ok (st, _, _) =>
      if Z.eqb st 0 then ret (Ok src)
      else ret (Err "failed to clone service: exit status")
  end.

(** The canonical staged file [protoDir/<service>.proto]. *)
Definition canonical_proto (service : string) (protoDir : path) : path :=
  join protoDir [service ++ ".proto"].

Definition is_proto (name : string) : bool := String.eqb (Ext name) proto_ext.

(** The [for _, f := range files] loop of [CopyProtobuf]; the deferred
    [Close] calls have no effect on the filesystem. *)
Fixpoint copy_protobuf_loop (service : string) (serviceProtoDir protoDir : path)
    (files : list string) : M error :=
  match files with
  | [] => ret None
  | f :: rest =>
      if negb (is_proto f) then copy_protobuf_loop service serviceProtoDir protoDir rest
      else
        let! r := os_Open (join serviceProtoDir [f]) in
        match r with
        | Err e => ret (Some ("cannot open source protobuf file: " ++ e))
        | Ok src =>
            let! r := os_Create (canonical_proto service protoDir) in
            match r with
            | Err e => ret (Some ("cannot create protobuf file: " ++ e))
            | Ok dst =>
                let! err := io_Copy dst src in
                match err with
                | Some e => ret (Some ("cannot copy protobuf file: " ++ e))
                | None => copy_protobuf_loop service serviceProtoDir protoDir rest
                end
            end
        end
  end.

Definition service_proto_dir (serviceDir : path) (private : bool) : path :=
  if private then join serviceDir ["proto"; "private"]
  else join serviceDir ["proto"; "public"].

Definition CopyProtobuf (service : string) (serviceDir protoDir : path) (private : bool)
  : M error :=
  let serviceProtoDir := service_proto_dir serviceDir private in
  let! r := os_ReadDir serviceProtoDir in
  match r with
  | Err e => ret (Some ("failed to read service protobuf directory: " ++ e))
  | Ok files => copy_protobuf_loop service serviceProtoDir protoDir files
  end.

Definition goGenerateCmd (service : string) (dir : path) : string * list string :=
  ("protoc", ["--twirp_out=paths=source_relative:" ++ path_to_string dir;
              "--go_out=paths=source_relative:" ++ path_to_string dir;
              "--proto_path=" ++ path_to_string dir;
              path_to_string (join dir [service ++ ".proto"])]).

Definition rubyGenerateCmd (service : string) (dir : path) : string * list string :=
  ("protoc", ["--proto_path=" ++ path_to_string dir;
              "--twirp_ruby_out=" ++ path_to_string dir;
              "--ruby_out=" ++ path_to_string dir;
              path_to_string (join dir [service ++ ".proto"])]).

Definition pythonGenerateCmd (service : string) (dir : path) : string * list string :=
  ("protoc", ["--proto_path=" ++ path_to_string dir;
              "--twirpy_out=" ++ path_to_string dir;
              "--python_out=" ++ path_to_string dir;
              path_to_string (join dir [service ++ ".proto"])]).

Definition javascriptGenerateCmd (service : string) (dir : path) : string * list string :=
  ("protoc", ["--proto_path=" ++ path_to_string dir;
              "--twirp_js_out=" ++ path_to_string dir;
              "--js_out=import_style=commonjs,binary:" ++ path_to_string dir;
              path_to_string (join dir [service ++ ".proto"])]).

(** The [switch language] of [GenerateCode]. *)
Definition generate_cmd (language service : string) (dir : path)
  : option (string * list string) :=
  if String.eqb language LanguageGo then Some (goGenerateCmd service dir)
  else if String.eqb language LanguageRuby then Some (rubyGenerateCmd service dir)
  else if String.eqb language LanguagePython then Some (pythonGenerateCmd service dir)
  else if String.eqb language LanguageJavascript then Some (javascriptGenerateCmd service dir)
  else None.

Definition no_command_msg : string := "no command has been implemented for this language".

(** [GenerateCode].  [StdoutPipe] and [StderrPipe] cannot fail on a fresh
    command; the two [ReadAll]s of the pipes are folded into the
    subprocess result: the streams are read whole, then [Wait] reports the
    exit status. *)
Definition GenerateCode (language service : string) (dir : path) : M error :=
  match generate_cmd language service dir with
  | None => ret (Some no_command_msg)
  | Some (prog, args) =>
      let! r := exec_Cmd prog args in
      match r with
      | Err e => ret (Some ("failed to start client generator: " ++ e))
      | Ok (st, out, errOut) =>
          (if bool_decide (out = []) then ret tt
           else logf (string_of_list_byte out)) ;;
          (if bool_decide (errOut = []) then ret tt
           else logf ("Generator encountered error: " ++ string_of_list_byte errOut)) ;;
          if Z.eqb st 0 then ret None
          else ret (Some "failed to run generator command: exit status")
      end
  end.

(** The output location [filepath.Join(cwd, outputPath, name)]. *)
Definition output_file (cwd : path) (outputPath name : string) : path :=
  join cwd [outputPath; name].

(** The loop of [CopyGeneratedFiles]; the source handles are never closed. *)
Fixpoint copy_generated_loop (protoDir cwd : path) (outputPath : string)
    (files : list string) : M error :=
  match files with
  | [] => ret None
  | f :: rest =>
      if is_proto f then copy_generated_loop protoDir cwd outputPath rest
      else
        let! r := os_Open (join protoDir [f]) in
        match r with
        | Err e => ret (Some ("failed to open generated file: " ++ e))
        | Ok src =>
            let! r := os_Create (output_file cwd outputPath f) in
            match r with
            | Err e => ret (Some ("failed to create generated file in output: " ++ e))
            | Ok dst =>
                let! err := io_Copy dst src in
                match err with
                | Some e => ret (Some ("failed to copy generated file to output: " ++ e))
                | None => copy_generated_loop protoDir cwd outputPath rest
                end
            end
        end
  end.

Definition CopyGeneratedFiles (protoDir : path) (outputPath : string) : M error :=
  let! r := os_Getwd in
  match r with
  | Err e => ret (Some ("cannot locate current working directory: " ++ e))
  | Ok cwd =>
      let! r := os_ReadDir protoDir in
      match r with
      | Err e => ret (Some ("failed to read protobuf directory: " ++ e))
      | Ok files => copy_generated_loop protoDir cwd outputPath files
      end
  end.

(* ------------------------------------------------------------------ *)
(** ** cmd/root.go *)

(** The command's flags. *)
Record Request := {
  language : string;
  service : string;
  private : bool;
  outputPath : string
}.

(** [rootCmd.Run].  The validity of the request read off its three gates. *)
Definition Run (req : Request) : M unit :=
  emit (EGateLanguage (language req)) ;;
  (if negb (IsValidLanguage (language req))
   then fatal "Error: Client code generation is not supported for this language"
   else ret tt) ;;
  emit (EGatePublic (service req)) ;;
  let validPub := IsValidPublicService (service req) in
  (if negb (private req) && negb validPub
   then fatal "Error: The service does not have a public protobuf defined"
   else ret tt) ;;
  emit (EGatePrivate (service req)) ;;
  let validPriv := IsValidPrivateService (service req) in
  (if private req && negb validPriv
   then fatal "Error: The service does not have a private protobuf defined"
   else ret tt) ;;
  let! env := ask in
  let! r := os_MkdirTemp (temp_dir env) "client-generation-" in
  match r with
  | Err e => fatal ("Error: Cannot create temporary directory: " ++ e)
  | Ok tmpDir =>
      with_defer (CleanUpDirectories tmpDir) (
        logf "Created temporary directory" ;;
        let protoDir := join tmpDir ["proto"] in
        let! err := os_Mkdir protoDir in
        match err with
        | Some e => CleanUpDirectories tmpDir ;;
                    fatal ("Error: Cannot create protobuf directory: " ++ e)
        | None =>
        let! r := CloneService (service req) tmpDir in
        match r with
        | Err e => CleanUpDirectories tmpDir ;; fatal ("Error: " ++ e)
        | Ok serviceDir =>
        let! err := CopyProtobuf (service req) serviceDir protoDir (private req) in
        match err with
        | Some e => CleanUpDirectories tmpDir ;; fatal ("Error: " ++ e)
        | None =>
        let! err := GenerateCode (language req) (service req) protoDir in
        match err with
        | Some e => CleanUpDirectories tmpDir ;; fatal ("Error: " ++ e)
        | None =>
        let! err := CopyGeneratedFiles protoDir (outputPath req) in
        match err with
        | Some e => CleanUpDirectories tmpDir ;; fatal ("Error: " ++ e)
        | None => ret tt
        end end end end end)
  end.

(** One invocation of the command on a filesystem, from an empty trace. *)
Definition run (env : Env) (req : Request) (fs : FS) : outcome unit * St :=
  Run req env (mkSt fs []).

Open Scope list_scope.

(* ------------------------------------------------------------------ *)
(** ** A concrete world for the examples *)

Definition bytes (s : string) : list Byte.byte := list_byte_of_string s.

Definition sample_tmp : path := ["tmp"; "client-generation-x1"].

(** [git clone] writes a catalog checkout with a public proto and a README;
    [protoc] writes the Go and Twirp outputs next to the staged proto. *)
Definition sample_exec (prog : string) (args : list string) (fs : FS) : proc_result :=
  if String.eqb prog "git" then
    Exited 0 (<[sample_tmp ++ ["catalog"; "proto"; "public"; "service.proto"] := File (bytes "syntax")]>
             (<[sample_tmp ++ ["catalog"; "proto"; "public"; "README.md"] := File (bytes "readme")]>
             (<[sample_tmp ++ ["catalog"; "proto"; "public"] := Dir]>
             (<[sample_tmp ++ ["catalog"; "proto"] := Dir]>
             (<[sample_tmp ++ ["catalog"] := Dir]> fs))))) [] []
  else if String.eqb prog "protoc" then
    Exited 0 (<[sample_tmp ++ ["proto"; "catalog.pb.go"] := File (bytes "package catalog")]>
             (<[sample_tmp ++ ["proto"; "catalog.twirp.go"] := File (bytes "package twirp")]> fs)) [] []
  else StartFailed "not found".

Definition sample_env : Env := {|
  temp_dir := ["tmp"];
  temp_suffix := "x1";
  getwd := Some ["home"];
  exec := sample_exec;
  readdir_denied := fun _ => false;
  open_denied := fun _ => false;
  create_denied := fun _ => false;
  mkdir_denied := fun _ => false;
  remove_denied := fun _ => false;
  copy_fault := fun _ => None
|}.

Definition sample_fs : FS :=
  <[["home"; "out"] := Dir]> (<[["home"] := Dir]> (<[["tmp"] := Dir]> (<[[] := Dir]> ∅))).

Definition sample_req (lang svc : string) (priv : bool) : Request :=
  {| language := lang; service := svc; private := priv; outputPath := "./out" |}.

(** A workspace holding a file whose removal is denied. *)
Definition locked_file : path := sample_tmp ++ ["proto"; "catalog.proto"].

Definition locked_env : Env := {|
  temp_dir := ["tmp"];
  temp_suffix := "x1";
  getwd := Some ["home"];
  exec := sample_exec;
  readdir_denied := fun _ => false;
  open_denied := fun _ => false;
  create_denied := fun _ => false;
  mkdir_denied := fun _ => false;
  remove_denied := fun k => bool_decide (k = locked_file);
  copy_fault := fun _ => None
|}.

Definition locked_fs : FS :=
  <[locked_file := File (bytes "syntax")]> (<[sample_tmp ++ ["proto"] := Dir]>
  (<[sample_tmp := Dir]> sample_fs)).

(** A checked-out catalog service whose public directory holds two protos
    and a README, next to an empty staging directory. *)
Definition clone_dir : path := sample_tmp ++ ["catalog"].

Definition staging_dir : path := sample_tmp ++ ["proto"].

Definition public_dir : path := clone_dir ++ ["proto"; "public"].

Definition cloned_fs : FS :=
  <[public_dir ++ ["service.proto"] := File (bytes "syntax")]>
  (<[public_dir ++ ["README.md"] := File (bytes "readme")]>
  (<[public_dir ++ ["alpha.proto"] := File (bytes "first")]>
  (<[public_dir := Dir]> (<[clone_dir ++ ["proto"] := Dir]> (<[clone_dir := Dir]>
  (<[staging_dir := Dir]> (<[sample_tmp := Dir]> sample_fs))))))).

(** Reading [service.proto] fails after two bytes. *)
Definition faulty_env : Env := {|
  temp_dir := ["tmp"];
  temp_suffix := "x1";
  getwd := Some ["home"];
  exec := sample_exec;
  readdir_denied := fun _ => false;
  open_denied := fun _ => false;
  create_denied := fun _ => false;
  mkdir_denied := fun _ => false;
  remove_denied := fun _ => false;
  copy_fault := fun p => if bool_decide (p = public_dir ++ ["service.proto"]) then Some 2 else None
|}.

(** A staging directory after generation: the staged proto and two
    generated files. *)
Definition generated_fs : FS :=
  <[staging_dir ++ ["catalog.twirp.go"] := File (bytes "package twirp")]>
  (<[staging_dir ++ ["catalog.pb.go"] := File (bytes "package catalog")]>
  (<[staging_dir ++ ["catalog.proto"] := File (bytes "syntax")]>
  (<[staging_dir := Dir]> (<[sample_tmp := Dir]> sample_fs)))).

(* ------------------------------------------------------------------ *)
(** ** Traces *)

(** The directories handed to [CleanUpDirectories], in order. *)
Definition cleanups (tr : list event) : list path :=
  omap (fun e => match e with ECleanUp d => Some d | _ => None end) tr.

(** The directories [os.MkdirTemp] created, in order. *)
Definition temps (tr : list event) : list path :=
  omap (fun e => match e with EMkdirTemp _ (Some d) => Some d | _ => None end) tr.

(** Events that neither create a workspace nor destroy one. *)
Definition plain (e : event) : bool :=
  match e with
  | ECleanUp _ => false
  | EMkdirTemp _ (Some _) => false
  | _ => true
  end.

(** Events of the filesystem, of subprocesses or of the network: all but
    the validation calls and logging. *)
Definition is_effect (e : event) : bool := negb (is_gate e) && negb (is_log e).

(** [runs_to m P]: from every state, [m] extends the trace by some [tr] and
    ends in an outcome [o] with [P o tr]. *)
Definition runs_to {A} (m : M A) (P : outcome A -> list event -> Prop) : Prop :=
  forall env s, exists tr,
    st_trace (snd (m env s)) = st_trace s ++ tr /\ P (fst (m env s)) tr.

(** A step that always returns and only has plain events. *)
Definition quiet {A} (m : M A) : Prop :=
  runs_to m (fun o tr => (exists a, o = Ret a) /\ Forall (fun e => plain e = true) tr).

(** The cleanup discipline of a stage inside [Run]'s deferred region: it
    returns with plain events, or it exits after exactly one cleanup of
    [d] and no new workspace. *)
Definition in_defer (d : path) (o : outcome unit) (tr : list event) : Prop :=
  match o with
  | Ret _ => Forall (fun e => plain e = true) tr
  | Exit _ => cleanups tr = [d] /\ temps tr = []
  end.

(** C1's property of a run: the workspaces destroyed are the ones created,
    and at most one is created. *)
Definition paired (o : outcome unit) (tr : list event) : Prop :=
  cleanups tr = temps tr /\ length (temps tr) <= 1.

(** The three validation gates of [Run] all pass. *)
Definition valid_request (req : Request) : bool :=
  IsValidLanguage (language req)
  && (private req || IsValidPublicService (service req))
  && (negb (private req) || IsValidPrivateService (service req)).

(** The trace of the three validation calls. *)
Definition gates (req : Request) : list event :=
  [EGateLanguage (language req); EGatePublic (service req); EGatePrivate (service req)].

(** A run that ended at the validation stage: the process exited with
    status 1 and no filesystem, subprocess or network call was made. *)
Definition rejected (r : outcome unit * St) : Prop :=
  fst r = Exit 1%Z /\ Forall (fun e => is_effect e = false) (st_trace (snd r)).

(** No property beyond extending the trace. *)
Definition extends {A} (o : outcome A) (tr : list event) : Prop := True.

(** The validation stage of [Run] as seen in the trace. *)
Definition gate_spec (req : Request) (o : outcome unit) (tr : list event) : Prop :=
  (valid_request req = false -> o = Exit 1%Z /\ Forall (fun e => is_effect e = false) tr)
  /\ (valid_request req = true ->
      exists dir r rest, tr = gates req ++ EMkdirTemp dir r :: rest).

(** A filesystem whose paths are made of names [os.ReadDir] can return. *)
Definition wf_fsb (fs : FS) : bool :=
  forallb (fun kv => forallb normalb kv.1) (map_to_list fs).

(** The last entry of a listing with the protobuf extension. *)
Fixpoint last_proto (names : list string) : option string :=
  match names with
  | [] => None
  | n :: rest =>
      match last_proto rest with
      | Some m => Some m
      | None => if is_proto n then Some n else None
      end
  end.


(** The subprocesses a run of [req] may start: git cloning the requested
    service's repository, or the requested language's compiler command. *)
Definition allowed_exec (req : Request) (e : event) : Prop :=
  match e with
  | EExec prog args =>
      (prog = "git"%string /\
       exists dst, args = ["clone"; ("git@github.com:asmahood/" ++ service req ++ ".git")%string;
                           dst])
      \/ exists dir, generate_cmd (language req) (service req) dir = Some (prog, args)
  | _ => True
  end.

(** A step all of whose subprocesses are allowed for [req]. *)
Definition starts_only (req : Request) {A} (m : M A) : Prop :=
  runs_to m (fun _ tr => Forall (allowed_exec req) tr).

(* ================================================================== *)
(** * Proofs *)

(** ** The trace calculus *)

Lemma runs_to_bind {A B} (m : M A) (k : A -> M B) P Q R :
  runs_to m P ->
  (forall a, runs_to (k a) (Q a)) ->
  (forall a tr1 o tr2, P (Ret a) tr1 -> Q a o tr2 -> R o (tr1 ++ tr2)) ->
  (forall c tr1, P (Exit c) tr1 -> R (Exit c) tr1) ->
  runs_to (bind m k) R.
Proof.
  intros Hm Hk Hret Hexit env s. unfold bind.
  destruct (Hm env s) as [tr1 [Ht1 HP]].
  destruct (m env s) as [[a|c] s'] eqn:E; simpl in *.
  - destruct (Hk a env s') as [tr2 [Ht2 HQ]].
    exists (tr1 ++ tr2). split; [|eauto].
    rewrite Ht2, Ht1, app_assoc. reflexivity.
  - exists tr1. auto.
Qed.

Lemma runs_to_weaken {A} (m : M A) (P Q : outcome A -> list event -> Prop) :
  runs_to m P -> (forall o tr, P o tr -> Q o tr) -> runs_to m Q.
Proof.
  intros Hm HPQ env s. destruct (Hm env s) as [tr [Ht HP]]. eauto.
Qed.

Lemma quiet_bind {A B} (m : M A) (k : A -> M B) :
  quiet m -> (forall a, quiet (k a)) -> quiet (bind m k).
Proof.
  intros Hm Hk.
  apply (runs_to_bind m k
           (fun o tr => (exists a, o = Ret a) /\ Forall (fun e => plain e = true) tr)
           (fun _ o tr => (exists b, o = Ret b) /\ Forall (fun e => plain e = true) tr));
    [exact Hm | exact Hk | |].
  - intros a tr1 o tr2 [_ H1] [H2 H3]. split; [exact H2|].
    apply Forall_app. auto.
  - intros c tr1 [[a Ha] _]. discriminate.
Qed.

Lemma quiet_ret {A} (a : A) : quiet (ret a).
Proof. intros env s. exists []. simpl. rewrite app_nil_r. eauto. Qed.

Lemma quiet_emit (e : event) : plain e = true -> quiet (emit e).
Proof. intros He env s. exists [e]. simpl. eauto. Qed.

Lemma quiet_get_fs : quiet get_fs.
Proof. intros env s. exists []. simpl. rewrite app_nil_r. eauto. Qed.

Lemma quiet_put_fs (fs : FS) : quiet (put_fs fs).
Proof. intros env s. exists []. simpl. rewrite app_nil_r. eauto. Qed.

Lemma quiet_ask : quiet ask.
Proof. intros env s. exists []. simpl. rewrite app_nil_r. eauto. Qed.

Lemma quiet_logf (msg : string) : quiet (logf msg).
Proof. apply quiet_emit. reflexivity. Qed.

Create HintDb quiet_db.
#[local] Hint Resolve quiet_ret quiet_get_fs quiet_put_fs quiet_ask quiet_logf : quiet_db.

Ltac quiet_step :=
  match goal with
  | |- quiet _ => solve [eauto with quiet_db]
  | |- quiet (bind _ _) => apply quiet_bind; [| intros ?; cbv beta]
  | |- quiet (emit _) => apply quiet_emit; reflexivity
  | |- quiet (if ?b then _ else _) => destruct b
  | |- quiet (match ?x with _ => _ end) => destruct x
  end.

Ltac quiet_auto := repeat quiet_step.

Lemma quiet_os_ReadDir p : quiet (os_ReadDir p).
Proof. unfold os_ReadDir. quiet_auto. Qed.
Lemma quiet_os_Open p : quiet (os_Open p).
Proof. unfold os_Open. quiet_auto. Qed.
Lemma quiet_os_Create p : quiet (os_Create p).
Proof. unfold os_Create. quiet_auto. Qed.
Lemma quiet_write_file p d : quiet (write_file p d).
Proof. unfold write_file. quiet_auto. Qed.
#[local] Hint Resolve quiet_os_ReadDir quiet_os_Open quiet_os_Create quiet_write_file : quiet_db.
Lemma quiet_io_Copy dst src : quiet (io_Copy dst src).
Proof. unfold io_Copy. quiet_auto. Qed.
Lemma quiet_os_Mkdir p : quiet (os_Mkdir p).
Proof. unfold os_Mkdir. quiet_auto. Qed.
Lemma quiet_os_Getwd : quiet os_Getwd.
Proof. unfold os_Getwd. quiet_auto. Qed.
Lemma quiet_os_RemoveAll p : quiet (os_RemoveAll p).
Proof. unfold os_RemoveAll. quiet_auto. Qed.
Lemma quiet_exec_Cmd prog args : quiet (exec_Cmd prog args).
Proof. unfold exec_Cmd. quiet_auto. Qed.
#[local] Hint Resolve quiet_io_Copy quiet_os_Mkdir quiet_os_Getwd quiet_os_RemoveAll
  quiet_exec_Cmd : quiet_db.

Lemma quiet_CloneService svc dir : quiet (CloneService svc dir).
Proof. unfold CloneService. quiet_auto. Qed.

Lemma quiet_copy_protobuf_loop svc spd pd files :
  quiet (copy_protobuf_loop svc spd pd files).
Proof. induction files; simpl; quiet_auto. Qed.
#[local] Hint Resolve quiet_copy_protobuf_loop : quiet_db.

Lemma quiet_CopyProtobuf svc sd pd priv : quiet (CopyProtobuf svc sd pd priv).
Proof. unfold CopyProtobuf. quiet_auto. Qed.

Lemma quiet_GenerateCode lang svc dir : quiet (GenerateCode lang svc dir).
Proof. unfold GenerateCode. quiet_auto. Qed.

Lemma quiet_copy_generated_loop pd cwd out files :
  quiet (copy_generated_loop pd cwd out files).
Proof. induction files; simpl; quiet_auto. Qed.
#[local] Hint Resolve quiet_copy_generated_loop : quiet_db.

Lemma quiet_CopyGeneratedFiles pd out : quiet (CopyGeneratedFiles pd out).
Proof. unfold CopyGeneratedFiles. quiet_auto. Qed.
#[local] Hint Resolve quiet_CloneService quiet_CopyProtobuf quiet_GenerateCode
  quiet_CopyGeneratedFiles : quiet_db.

(** ** Workspace creation and destruction *)

Lemma plain_cleanups_temps (tr : list event) :
  Forall (fun e => plain e = true) tr -> cleanups tr = [] /\ temps tr = [].
Proof.
  induction 1 as [|e tr He _ [IH1 IH2]]; [split; reflexivity|].
  unfold cleanups, temps, omap, list_omap in *. simpl in *.
  destruct e as [| | | ? [?|] | | | | | | | | | |]; simpl in He; try discriminate;
    rewrite ?IH1, ?IH2; split; reflexivity.
Qed.

Lemma quiet_plain {A} (m : M A) :
  quiet m -> runs_to m (fun _ tr => Forall (fun e => plain e = true) tr).
Proof. intros Hm. eapply runs_to_weaken; [exact Hm|]. intros o tr [_ H]. exact H. Qed.

(** A step with plain events followed by [k]: the property [Q] of [k]
    survives when it is closed under plain prefixes. *)
Lemma plain_then {A B} (m : M A) (k : A -> M B) (Q : outcome B -> list event -> Prop) :
  runs_to m (fun _ tr => Forall (fun e => plain e = true) tr) ->
  (forall a, runs_to (k a) Q) ->
  (forall o tr1 tr2, Forall (fun e => plain e = true) tr1 -> Q o tr2 -> Q o (tr1 ++ tr2)) ->
  (forall c tr, Forall (fun e => plain e = true) tr -> Q (Exit c) tr) ->
  runs_to (bind m k) Q.
Proof.
  intros Hm Hk Hpre Hexit. eapply runs_to_bind; [exact Hm | exact Hk | |]; eauto.
Qed.

Lemma fatal_plain {A} (msg : string) :
  runs_to (@fatal A msg) (fun o tr => o = Exit 1%Z /\ Forall (fun e => plain e = true) tr).
Proof. intros env s. exists [ELog msg]. simpl. eauto. Qed.

Lemma emit_runs (e : event) : runs_to (emit e) (fun o tr => o = Ret tt /\ tr = [e]).
Proof. intros env s. exists [e]. simpl. auto. Qed.

Lemma CleanUpDirectories_runs (d : path) :
  runs_to (CleanUpDirectories d) (fun _ tr => cleanups tr = [d] /\ temps tr = []).
Proof.
  unfold CleanUpDirectories.
  apply (runs_to_bind _ _ (fun o tr => o = Ret tt /\ tr = [ECleanUp d])
           (fun _ _ tr => Forall (fun e => plain e = true) tr));
    [apply emit_runs | intros _ | |].
  - apply plain_then; [apply quiet_plain, quiet_os_RemoveAll | intros [e|] | |].
    + eapply runs_to_weaken; [apply fatal_plain|]. intros o tr [_ H]. exact H.
    + apply quiet_plain, quiet_ret.
    + intros o tr1 tr2 H1 H2. apply Forall_app. auto.
    + auto.
  - intros _ tr1 o tr2 [_ ->] H2.
    destruct (plain_cleanups_temps tr2 H2) as [Hc Ht].
    unfold cleanups, temps in *. rewrite !omap_app, Hc, Ht. split; reflexivity.
  - intros c tr1 [H _]. discriminate.
Qed.

Lemma in_defer_quiet_then {A} (d : path) (m : M A) (k : A -> M unit) :
  quiet m -> (forall a, runs_to (k a) (in_defer d)) -> runs_to (bind m k) (in_defer d).
Proof.
  intros Hm Hk. eapply runs_to_bind; [exact Hm | exact Hk | |].
  - intros a tr1 [o|c] tr2 [_ H1] H2; simpl in *.
    + apply Forall_app. auto.
    + destruct (plain_cleanups_temps tr1 H1) as [Hc Ht]. destruct H2 as [Hc2 Ht2].
      unfold cleanups, temps in *. rewrite !omap_app, Hc, Ht, Hc2, Ht2. auto.
  - intros c tr1 [[a Ha] _]. discriminate.
Qed.

Lemma in_defer_fail (d : path) (msg : string) :
  runs_to (CleanUpDirectories d ;; fatal msg) (in_defer d).
Proof.
  apply (runs_to_bind _ _ (fun _ tr => cleanups tr = [d] /\ temps tr = [])
           (fun _ o tr => o = Exit 1%Z /\ Forall (fun e => plain e = true) tr));
    [apply CleanUpDirectories_runs | intros _; apply fatal_plain | |].
  - intros _ tr1 o tr2 [Hc Ht] [Ho H2]. subst o. simpl.
    destruct (plain_cleanups_temps tr2 H2) as [Hc2 Ht2].
    unfold cleanups, temps in *. rewrite !omap_app, Hc, Ht, Hc2, Ht2. auto.
  - intros c tr1 H. exact H.
Qed.

Lemma in_defer_ret (d : path) : runs_to (ret tt) (in_defer d).
Proof. intros env s. exists []. simpl. rewrite app_nil_r. auto. Qed.

Lemma with_defer_runs (d : path) (k : M unit) :
  runs_to k (in_defer d) ->
  runs_to (with_defer (CleanUpDirectories d) k) (fun _ tr => cleanups tr = [d] /\ temps tr = []).
Proof.
  intros Hk env s. unfold with_defer.
  destruct (Hk env s) as [tr1 [Ht1 H1]].
  destruct (k env s) as [[a|c] s'] eqn:E; simpl in *.
  - destruct (CleanUpDirectories_runs d env s') as [tr2 [Ht2 [Hc2 Ht2']]].
    exists (tr1 ++ tr2). rewrite Ht2, Ht1, app_assoc. split; [reflexivity|].
    destruct (plain_cleanups_temps tr1 H1) as [Hc Ht].
    unfold cleanups, temps in *. rewrite !omap_app, Hc, Ht, Hc2, Ht2'. auto.
  - exists tr1. auto.
Qed.

Lemma os_MkdirTemp_runs (dir : path) (pat : string) :
  runs_to (os_MkdirTemp dir pat)
    (fun o tr => (exists d, o = Ret (Ok d) /\ tr = [EMkdirTemp dir (Some d)])
                 \/ (exists e, o = Ret (Err e) /\ tr = [EMkdirTemp dir None])).
Proof.
  intros env s. unfold os_MkdirTemp, bind, ask, get_fs, put_fs, emit, ret. simpl.
  destruct (_ || _); simpl; eexists; split; eauto.
Qed.

Ltac defer_auto :=
  repeat match goal with
  | |- runs_to (bind (CleanUpDirectories _) _) (in_defer _) => apply in_defer_fail
  | |- runs_to (bind _ _) (in_defer _) =>
      apply in_defer_quiet_then; [solve [eauto with quiet_db] | intros ?; cbv beta zeta]
  | |- runs_to (ret _) (in_defer _) => apply in_defer_ret
  | |- runs_to (match ?x with _ => _ end) (in_defer _) => destruct x
  end.

Lemma paired_pre o tr1 tr2 :
  Forall (fun e => plain e = true) tr1 -> paired o tr2 -> paired o (tr1 ++ tr2).
Proof.
  intros H1 [H2 H3]. destruct (plain_cleanups_temps tr1 H1) as [Hc Ht].
  unfold paired, cleanups, temps in *. rewrite !omap_app, Hc, Ht. simpl. auto.
Qed.

Lemma paired_plain o tr : Forall (fun e => plain e = true) tr -> paired o tr.
Proof.
  intros H. destruct (plain_cleanups_temps tr H) as [Hc Ht].
  unfold paired. rewrite Hc, Ht. simpl. split; [reflexivity | lia].
Qed.

Lemma if_fatal_plain (b : bool) (msg : string) :
  runs_to (if b then fatal msg else ret tt) (fun _ tr => Forall (fun e => plain e = true) tr).
Proof.
  destruct b.
  - eapply runs_to_weaken; [apply fatal_plain|]. intros o tr [_ H]. exact H.
  - apply quiet_plain, quiet_ret.
Qed.

Lemma Run_paired (req : Request) : runs_to (Run req) paired.
Proof.
  unfold Run.
  repeat (apply plain_then;
          [first [apply if_fatal_plain | apply quiet_plain; solve [quiet_auto]]
          | intros ?; cbv beta zeta | apply paired_pre | intros ??; apply paired_plain]).
  apply (runs_to_bind _ _
           (fun o tr => (exists d, o = Ret (Ok d) /\ tr = [EMkdirTemp (temp_dir a5) (Some d)])
                        \/ (exists e, o = Ret (Err e) /\ tr = [EMkdirTemp (temp_dir a5) None]))
           (fun r o tr => match r with
                          | Ok d => cleanups tr = [d] /\ temps tr = []
                          | Err _ => Forall (fun e => plain e = true) tr
                          end));
    [apply os_MkdirTemp_runs | intros [d|e] | |].
  - apply with_defer_runs. defer_auto.
  - eapply runs_to_weaken; [apply fatal_plain|]. intros o tr [_ H]. exact H.
  - intros r tr1 o tr2 [[d [Hr ->]] | [e [Hr ->]]] H2; injection Hr as ->.
    + destruct H2 as [Hc Ht]. unfold paired, cleanups, temps in *.
      rewrite !omap_app, Hc, Ht. simpl. split; [reflexivity | lia].
    + apply paired_plain. apply Forall_app. split; [repeat constructor | exact H2].
  - intros c tr1 [[d [Hr _]] | [e [Hr _]]]; discriminate.
Qed.

Lemma ext_of {A} (m : M A) P : runs_to m P -> runs_to m extends.
Proof. intros H. eapply runs_to_weaken; [exact H|]. constructor. Qed.

Lemma ext_quiet {A} (m : M A) : quiet m -> runs_to m extends.
Proof. apply ext_of. Qed.

Lemma ext_bind {A B} (m : M A) (k : A -> M B) :
  runs_to m extends -> (forall a, runs_to (k a) extends) -> runs_to (bind m k) extends.
Proof. intros Hm Hk. eapply runs_to_bind; [exact Hm | exact Hk | |]; constructor. Qed.

Lemma ext_with_defer (d k : M unit) :
  runs_to d extends -> runs_to k extends -> runs_to (with_defer d k) extends.
Proof.
  intros Hd Hk env s. unfold with_defer.
  destruct (Hk env s) as [tr1 [Ht1 _]].
  destruct (k env s) as [[a|c] s'] eqn:E; simpl in *.
  - destruct (Hd env s') as [tr2 [Ht2 _]]. exists (tr1 ++ tr2).
    rewrite Ht2, Ht1, app_assoc. split; [reflexivity | constructor].
  - exists tr1. split; [exact Ht1 | constructor].
Qed.

Ltac ext_auto :=
  repeat match goal with
  | |- runs_to (bind _ _) extends => apply ext_bind; [| intros ?; cbv beta zeta]
  | |- runs_to (with_defer _ _) extends => apply ext_with_defer
  | |- runs_to (CleanUpDirectories _) extends => eapply ext_of, CleanUpDirectories_runs
  | |- runs_to (os_MkdirTemp _ _) extends => eapply ext_of, os_MkdirTemp_runs
  | |- runs_to (fatal _) extends => eapply ext_of, fatal_plain
  | |- runs_to (match ?x with _ => _ end) extends => destruct x
  | |- runs_to _ extends => apply ext_quiet; solve [quiet_auto]
  end.

Lemma emit_then {A} (e : event) (k : unit -> M A) Q :
  runs_to (k tt) Q -> runs_to (bind (emit e) k) (fun o tr => exists tr', tr = e :: tr' /\ Q o tr').
Proof.
  intros Hk.
  apply (runs_to_bind _ _ (fun o tr => o = Ret tt /\ tr = [e]) (fun _ => Q));
    [apply emit_runs | intros []; exact Hk | |].
  - intros _ tr1 o tr2 [_ ->] H. eauto.
  - intros c tr1 [H _]. discriminate.
Qed.

Lemma ret_then {A B} (a : A) (k : A -> M B) Q :
  runs_to (k a) Q -> runs_to (bind (ret a) k) Q.
Proof. intros Hk env s. exact (Hk env s). Qed.

Lemma ask_then {A} (k : Env -> M A) Q :
  (forall env, runs_to (k env) Q) -> runs_to (bind ask k) Q.
Proof. intros Hk env s. exact (Hk env env s). Qed.

Lemma fatal_then {A B} (msg : string) (k : A -> M B) :
  runs_to (bind (fatal msg) k) (fun o tr => o = Exit 1%Z /\ tr = [ELog msg]).
Proof. intros env s. exists [ELog msg]. simpl. auto. Qed.

Lemma mkdirtemp_then (dir : path) (pat : string) (k : res path -> M unit) :
  (forall r, runs_to (k r) extends) ->
  runs_to (bind (os_MkdirTemp dir pat) k)
    (fun o tr => exists dir' r rest, tr = EMkdirTemp dir' r :: rest).
Proof.
  intros Hk.
  apply (runs_to_bind _ _ _ (fun r => extends) _ (os_MkdirTemp_runs dir pat) Hk).
  - intros a tr1 o tr2 [[d [_ ->]] | [e [_ ->]]] _; eauto.
  - intros c tr1 [[d [H _]] | [e [H _]]]; discriminate.
Qed.

Lemma Run_gates (req : Request) : runs_to (Run req) (gate_spec req).
Proof.
  unfold Run, gate_spec, valid_request.
  destruct (IsValidLanguage (language req)) eqn:HL; simpl.
  2:{ eapply runs_to_weaken; [apply emit_then, fatal_then|].
      intros o tr [tr' [-> [-> ->]]]. split; [|discriminate]. intros _.
      split; [reflexivity | repeat constructor]. }
  destruct (private req) eqn:HP, (IsValidPublicService (service req)) eqn:HPub,
    (IsValidPrivateService (service req)) eqn:HPriv; simpl;
    first
      [ eapply runs_to_weaken;
        [ apply emit_then, ret_then, emit_then, ret_then, emit_then, ret_then, ask_then;
          intros env; apply mkdirtemp_then; intros r; ext_auto |];
        intros o tr [t1 [-> [t2 [-> [t3 [-> [dir [r [rest ->]]]]]]]]];
        split; [discriminate | intros _; exists dir, r, rest; reflexivity]
      | eapply runs_to_weaken;
        [ apply emit_then, ret_then, emit_then, fatal_then |];
        intros o tr [t1 [-> [t2 [-> [-> ->]]]]];
        split; [intros _; split; [reflexivity | repeat constructor] | discriminate]
      | eapply runs_to_weaken;
        [ apply emit_then, ret_then, emit_then, ret_then, emit_then, fatal_then |];
        intros o tr [t1 [-> [t2 [-> [t3 [-> [-> ->]]]]]]];
        split; [intros _; split; [reflexivity | repeat constructor] | discriminate] ].
Qed.

Lemma run_gate_spec (env : Env) (req : Request) (fs : FS) :
  gate_spec req (fst (run env req fs)) (st_trace (snd (run env req fs))).
Proof.
  destruct (Run_gates req env (mkSt fs [])) as [tr [Ht H]].
  unfold run. rewrite Ht. exact H.
Qed.

Lemma rejected_iff (env : Env) (req : Request) (fs : FS) :
  rejected (run env req fs) <-> valid_request req = false.
Proof.
  destruct (run_gate_spec env req fs) as [Hinv Hval]. split.
  - intros [_ Hf]. destruct (valid_request req) eqn:Hv; [|reflexivity].
    destruct (Hval eq_refl) as [dir [r [rest Ht]]]. rewrite Ht in Hf.
    apply Forall_app in Hf as [_ Hf]. inversion Hf as [|? ? He]. discriminate He.
  - intros Hv. exact (Hinv Hv).
Qed.

Lemma noneffect_prefix (g x pre post : list event) (e : event) :
  Forall (fun e => is_effect e = false) g -> g ++ x = pre ++ e :: post ->
  is_effect e = true -> exists rest, pre = g ++ rest.
Proof.
  intros Hg. revert pre. induction Hg as [|a g Ha Hg IH]; intros pre Heq He.
  - exists pre. reflexivity.
  - destruct pre as [|b pre]; simpl in Heq; injection Heq as -> Heq.
    + congruence.
    + destruct (IH pre Heq He) as [rest ->]. exists rest. reflexivity.
Qed.

(** ** C1 *)

(** C1: in every run, the directories handed to [CleanUpDirectories] are
    exactly the workspaces [os.MkdirTemp] created, and at most one is
    created: a run whose workspace creation succeeds destroys it exactly
    once, on the success path and on every failure path of the later
    stages (those call [CleanUpDirectories] and then exit through
    [log.Fatalf], which skips the deferred call); a run whose creation
    fails, or that never gets there, destroys none. *)
Theorem Run_destroys_workspace_once (env : Env) (req : Request) (fs : FS) :
  let tr := st_trace (snd (run env req fs)) in
  cleanups tr = temps tr /\ length (temps tr) <= 1.
Proof.
  destruct (Run_paired req env (mkSt fs [])) as [tr [Ht Hp]].
  simpl. unfold run. rewrite Ht. exact Hp.
Qed.

(** ** C2 *)

(** C2: a request failing any of the three validation gates ends in exit
    status 1 with no filesystem, subprocess or network call in the trace;
    and whenever any such call occurs, the trace starts with the three
    validation calls (language, public capability, private capability):
    all three gates are evaluated before the temporary directory is
    created or anything is cloned. *)
Theorem Run_validates_before_effects (env : Env) (req : Request) (fs : FS) :
  (valid_request req = false -> rejected (run env req fs)) /\
  (forall pre e post,
     st_trace (snd (run env req fs)) = pre ++ e :: post -> is_effect e = true ->
     exists rest, pre = gates req ++ rest).
Proof.
  destruct (run_gate_spec env req fs) as [Hinv Hval]. split.
  - intros Hv. exact (Hinv Hv).
  - intros pre e post Htr He.
    destruct (valid_request req) eqn:Hv.
    + destruct (Hval eq_refl) as [dir [r [rest Ht]]]. rewrite Ht in Htr.
      eapply noneffect_prefix; [| exact Htr | exact He].
      repeat constructor.
    + destruct (Hinv eq_refl) as [_ Hf]. rewrite Htr in Hf.
      apply Forall_app in Hf as [_ Hf]. inversion Hf. congruence.
Qed.

(** ** C4 *)

(** C4: for a supported language, a public request is rejected at
    validation (exit 1, no filesystem or network call) exactly when the
    service has no public protobuf, a private request exactly when it has
    no private one; a service with both is accepted either way; and a
    public request for jabba is rejected at validation whatever the
    language. *)
Theorem service_visibility_gates (env : Env) (fs : FS) (l s out : string)
    (HL : IsValidLanguage l = true) :
  (rejected (run env (Build_Request l s false out) fs) <-> IsValidPublicService s = false) /\
  (rejected (run env (Build_Request l s true out) fs) <-> IsValidPrivateService s = false) /\
  (IsValidPublicService s = true -> IsValidPrivateService s = true ->
     ~ rejected (run env (Build_Request l s false out) fs) /\
     ~ rejected (run env (Build_Request l s true out) fs)) /\
  (forall l' out', rejected (run env (Build_Request l' ServiceJabba false out') fs)).
Proof.
  rewrite !rejected_iff. unfold valid_request. simpl. rewrite HL. simpl.
  rewrite andb_true_r. split; [reflexivity|]. split; [reflexivity|]. split.
  - intros -> ->. split; discriminate.
  - intros l' out'. rewrite rejected_iff. unfold valid_request. simpl.
    rewrite andb_false_r. reflexivity.
Qed.

Lemma service_visibility_gates_witness :
  IsValidLanguage "golang" = true /\
  rejected (run sample_env (Build_Request "golang" "jabba" false "./out") sample_fs).
Proof.
  split; [reflexivity|].
  apply (service_visibility_gates sample_env sample_fs "golang" "jabba" "./out");
    reflexivity.
Defined.

(** ** C3 *)

(** C3 (counterexample): the validator rejects "go", which the claim lists
    among the accepted values; the code's Go constant is "golang". *)
Lemma IsValidLanguage_rejects_go :
  IsValidLanguage "go" = false /\
  ~ (forall l, IsValidLanguage l = true <->
               In l ["go"; "ruby"; "python"; "javascript"; "java"]).
Proof.
  split; [reflexivity|]. intros H. destruct (H "go") as [_ Hgo].
  discriminate (Hgo (or_introl eq_refl)).
Qed.

(** C3 (amended): [IsValidLanguage l] holds exactly for the five constants
    golang, ruby, python, javascript and java. *)
Theorem IsValidLanguage_spec (l : string) :
  IsValidLanguage l = true <-> In l ["golang"; "ruby"; "python"; "javascript"; "java"].
Proof.
  unfold IsValidLanguage, switch_case. rewrite existsb_exists. split.
  - intros [x [Hin Heq]]. apply String.eqb_eq in Heq. subst x.
    simpl in *. intuition.
  - intros Hin. exists l. split; [|apply String.eqb_refl].
    simpl in *. unfold LanguageGo, LanguageRuby, LanguagePython, LanguageJava,
      LanguageJavascript. intuition.
Qed.

(** ** C7 *)

(** C7: for a language outside golang, ruby, python and javascript,
    [GenerateCode] returns the "no command has been implemented for this
    language" error and leaves the state as it was: no subprocess is
    started, nothing is written or logged. *)
Theorem GenerateCode_without_profile (lang svc : string) (dir : path)
    (H : ~ In lang [LanguageGo; LanguageRuby; LanguagePython; LanguageJavascript])
    (env : Env) (s : St) :
  GenerateCode lang svc dir env s = (Ret (Some no_command_msg), s).
Proof.
  unfold GenerateCode, generate_cmd.
  destruct (String.eqb lang LanguageGo) eqn:E1;
    [apply String.eqb_eq in E1; subst; simpl in H; intuition|].
  destruct (String.eqb lang LanguageRuby) eqn:E2;
    [apply String.eqb_eq in E2; subst; simpl in H; intuition|].
  destruct (String.eqb lang LanguagePython) eqn:E3;
    [apply String.eqb_eq in E3; subst; simpl in H; intuition|].
  destruct (String.eqb lang LanguageJavascript) eqn:E4;
    [apply String.eqb_eq in E4; subst; simpl in H; intuition|].
  reflexivity.
Qed.

(** The java case: the validator accepts java, and [GenerateCode] then
    fails before starting anything. *)
Lemma GenerateCode_without_profile_witness :
  IsValidLanguage "java" = true /\
  GenerateCode "java" "catalog" (sample_tmp ++ ["proto"]) sample_env (mkSt sample_fs [])
  = (Ret (Some no_command_msg), mkSt sample_fs []).
Proof.
  split; [reflexivity|].
  apply GenerateCode_without_profile. vm_compute. intuition discriminate.
Defined.

(** ** C9 *)

Lemma CleanUpDirectories_outcome (d : path) (env : Env) (s : St) :
  fst (CleanUpDirectories d env s)
  = match removable env (st_fs s) d with [] => Ret tt | _ :: _ => Exit 1%Z end.
Proof.
  unfold CleanUpDirectories, os_RemoveAll, bind, emit, ask, get_fs, put_fs, fatal, logf, ret.
  simpl. destruct (removable env (st_fs s) d); reflexivity.
Qed.

Lemma CleanUpDirectories_fs (d : path) (env : Env) (s : St) :
  st_fs (snd (CleanUpDirectories d env s))
  = filter (fun kv => keep_after_remove (removable env (st_fs s) d) d kv.1 = true) (st_fs s).
Proof.
  unfold CleanUpDirectories, os_RemoveAll, bind, emit, ask, get_fs, put_fs, fatal, logf, ret.
  simpl. destruct (removable env (st_fs s) d); reflexivity.
Qed.


Lemma filter_prefix_nil (d : path) (f : path -> bool) (l : list path) :
  (forall k, In k l -> prefixb d k = false) ->
  filter (fun k => prefixb d k && f k) l = [].
Proof.
  induction l as [|k l IH]; intros H; [reflexivity|].
  rewrite filter_cons_False; [|rewrite (H k (or_introl eq_refl)); simpl; tauto].
  apply IH. intros k' Hk'. apply H. right. exact Hk'.
Qed.

Lemma in_keys (fs : FS) (k : path) :
  In k (map fst (map_to_list fs)) -> exists x, fs !! k = Some x.
Proof.
  intros Hin. apply in_map_iff in Hin as [[k' x] [Hk Hin]]. simpl in Hk. subst k'.
  exists x. apply elem_of_map_to_list. apply list_elem_of_In. exact Hin.
Qed.

Lemma removable_nil (env : Env) (fs : FS) (d : path) :
  (forall k x, fs !! k = Some x -> prefixb d k = false) -> removable env fs d = [].
Proof.
  intros H. unfold removable. apply filter_prefix_nil.
  intros k Hin. destruct (in_keys fs k Hin) as [x Hx]. exact (H k x Hx).
Qed.

Lemma filter_keep_id (fs : FS) (d : path) :
  (forall k x, fs !! k = Some x -> prefixb d k = false) ->
  filter (fun kv => keep_after_remove [] d kv.1 = true) fs = fs.
Proof.
  intros H. apply map_filter_id. intros k x Hk. simpl.
  unfold keep_after_remove. rewrite (H k x Hk). reflexivity.
Qed.

Lemma filter_keep_clears (fs : FS) (d : path) :
  forall k x, filter (fun kv => keep_after_remove [] d kv.1 = true) fs !! k = Some x ->
  prefixb d k = false.
Proof.
  intros k x Hk. apply map_lookup_filter_Some in Hk as [_ Hk]. simpl in Hk.
  unfold keep_after_remove in Hk. simpl in Hk. rewrite orb_false_r in Hk.
  destruct (prefixb d k); [discriminate | reflexivity].
Qed.

(** C9 (counterexample): when a removal under the workspace is denied,
    [CleanUpDirectories] does not return to its caller: it logs the error
    through [log.Fatalf] and the process exits with status 1. *)
Lemma CleanUpDirectories_exits_on_error :
  fst (CleanUpDirectories sample_tmp locked_env (mkSt locked_fs [])) = Exit 1%Z.
Proof. vm_compute. reflexivity. Qed.



(** C9 (amended): [CleanUpDirectories d] returns normally exactly when no
    removal under [d] is denied, and otherwise ends the process with status
    1; when it returns, nothing under [d] is left, and a second call then
    returns normally and changes nothing; on a path with nothing under it
    (already removed) it returns normally and changes nothing. *)
Theorem CleanUpDirectories_idempotent (d : path) (env : Env) (s : St) :
  let r := CleanUpDirectories d env s in
  (fst r = Ret tt <-> removable env (st_fs s) d = []) /\
  (removable env (st_fs s) d <> [] -> fst r = Exit 1%Z) /\
  (fst r = Ret tt -> forall k x, st_fs (snd r) !! k = Some x -> prefixb d k = false) /\
  (fst r = Ret tt ->
     fst (CleanUpDirectories d env (snd r)) = Ret tt /\
     st_fs (snd (CleanUpDirectories d env (snd r))) = st_fs (snd r)) /\
  ((forall k x, st_fs s !! k = Some x -> prefixb d k = false) ->
     fst r = Ret tt /\ st_fs (snd r) = st_fs s).
Proof.
  cbv zeta.
  assert (Hret : fst (CleanUpDirectories d env s) = Ret tt ->
                 forall k x, st_fs (snd (CleanUpDirectories d env s)) !! k = Some x ->
                 prefixb d k = false).
  { rewrite CleanUpDirectories_outcome, CleanUpDirectories_fs.
    destruct (removable env (st_fs s) d); [|discriminate].
    intros _. apply filter_keep_clears. }
  rewrite CleanUpDirectories_outcome.
  split; [split|split; [|split; [|split]]].
  - destruct (removable env (st_fs s) d); [reflexivity | discriminate].
  - intros ->. reflexivity.
  - destruct (removable env (st_fs s) d); [congruence | reflexivity].
  - rewrite <- CleanUpDirectories_outcome. exact Hret.
  - intros H. assert (Hc := Hret ltac:(rewrite CleanUpDirectories_outcome; exact H)).
    split.
    + rewrite CleanUpDirectories_outcome, removable_nil by exact Hc. reflexivity.
    + rewrite CleanUpDirectories_fs, removable_nil by exact Hc.
      apply filter_keep_id. exact Hc.
  - intros H. split.
    + rewrite removable_nil by exact H. reflexivity.
    + rewrite CleanUpDirectories_fs, removable_nil by exact H.
      apply filter_keep_id. exact H.
Qed.

(** ** Paths and listings *)

Lemma in_insert_sorted (x n : string) (l : list string) :
  In x (insert_sorted n l) <-> x = n \/ In x l.
Proof.
  induction l as [|m l IH]; simpl; [intuition congruence|].
  destruct (String.leb n m); simpl; [intuition congruence|]. rewrite IH. intuition congruence.
Qed.

Lemma in_sort_names (x : string) (l : list string) : In x (sort_names l) <-> In x l.
Proof.
  induction l as [|n l IH]; simpl; [tauto|]. rewrite in_insert_sorted, IH. intuition congruence.
Qed.

Lemma split_last_app (k q : path) (n : string) :
  split_last k = Some (q, n) -> k = q ++ [n].
Proof.
  unfold split_last. destruct (rev k) as [|m r] eqn:E; [discriminate|].
  intros H. injection H as <- <-. rewrite <- (rev_involutive k), E. reflexivity.
Qed.

Lemma in_dir_listing (fs : FS) (p : path) (n : string) :
  In n (dir_listing fs p) -> exists x, fs !! (p ++ [n]) = Some x.
Proof.
  unfold dir_listing, children. rewrite in_sort_names.
  intros Hin. apply list_elem_of_In, list_elem_of_omap in Hin as [k [Hk Hf]].
  apply list_elem_of_In in Hk. destruct (in_keys fs k Hk) as [x Hx].
  destruct (split_last k) as [[q m]|] eqn:Es; [|discriminate].
  destruct (decide (q = p)) as [->|]; [|discriminate].
  injection Hf as <-. apply split_last_app in Es. subst k. eauto.
Qed.

Lemma wf_fsb_lookup (fs : FS) (k : path) (x : node) :
  wf_fsb fs = true -> fs !! k = Some x -> Forall (fun c => normalb c = true) k.
Proof.
  unfold wf_fsb. intros Hwf Hk. apply forallb_forall with (x := (k, x)) in Hwf.
  - apply Forall_forall. intros c Hc. simpl in Hwf. apply list_elem_of_In in Hc.
    apply forallb_forall with (x := c) in Hwf; assumption.
  - apply list_elem_of_In, elem_of_map_to_list. exact Hk.
Qed.

Lemma listing_normal (fs : FS) (p : path) (n : string) :
  wf_fsb fs = true -> In n (dir_listing fs p) -> normalb n = true.
Proof.
  intros Hwf Hin. destruct (in_dir_listing fs p n Hin) as [x Hx].
  apply (wf_fsb_lookup fs _ x Hwf) in Hx. apply Forall_app in Hx as [_ Hx].
  inversion Hx. assumption.
Qed.

Lemma split_slash_aux_noslash (l cur : list ascii) :
  existsb (fun c => Ascii.eqb c "/"%char) l = false ->
  split_slash_aux l cur = [string_of_list_ascii (rev cur ++ l)].
Proof.
  revert cur. induction l as [|c l IH]; intros cur H; simpl.
  - rewrite app_nil_r. reflexivity.
  - simpl in H. apply orb_false_iff in H as [Hc Hl]. rewrite Hc.
    rewrite IH by exact Hl. simpl. rewrite <- app_assoc. reflexivity.
Qed.

Lemma join_normal (p : path) (n : string) : normalb n = true -> join p [n] = p ++ [n].
Proof.
  unfold normalb. intros H.
  apply andb_prop in H as [H Hs]. apply andb_prop in H as [H H3].
  apply andb_prop in H as [H1 H2]. apply negb_true_iff in H1, H2, H3, Hs.
  unfold join. simpl. unfold split_slash.
  rewrite split_slash_aux_noslash by exact Hs. simpl.
  rewrite string_of_list_ascii_of_string. unfold clean_step.
  rewrite H1, H2, H3. reflexivity.
Qed.

Lemma join_two (p : path) (a b : string) : join p [a; b] = join (join p [a]) [b].
Proof. unfold join. simpl. rewrite !app_nil_r, fold_left_app. reflexivity. Qed.

(** ** Evaluating the filesystem calls *)

Lemma bind_unfold {A B} (m : M A) (k : A -> M B) env s :
  bind m k env s = match m env s with
                   | (Ret a, s') => k a env s'
                   | (Exit c, s') => (Exit c, s')
                   end.
Proof. reflexivity. Qed.

Lemma os_ReadDir_eval (p : path) env s :
  os_ReadDir p env s =
  (Ret (if readdir_denied env p then Err "permission denied"
        else match st_fs s !! p with
             | Some Dir => Ok (dir_listing (st_fs s) p)
             | Some (File _) => Err "not a directory"
             | None => Err "no such file or directory"
             end), mkSt (st_fs s) (st_trace s ++ [EReadDir p])).
Proof.
  unfold os_ReadDir, bind, emit, ask, get_fs, ret. simpl.
  destruct (readdir_denied env p); [reflexivity|].
  destruct (st_fs s !! p) as [[]|]; reflexivity.
Qed.

Lemma os_Open_spec (p : path) env s o s' :
  os_Open p env s = (o, s') ->
  st_fs s' = st_fs s /\
  ((o = Ret (Ok p) /\ is_Some (st_fs s !! p)) \/ exists e, o = Ret (Err e)).
Proof.
  unfold os_Open, bind, emit, ask, get_fs, ret. simpl.
  destruct (open_denied env p); [intros [= <- <-]; simpl; eauto|].
  destruct (st_fs s !! p) eqn:E; intros [= <- <-]; simpl; eauto.
Qed.

Lemma os_Create_spec (p : path) env s o s' :
  os_Create p env s = (o, s') ->
  (o = Ret (Ok p) /\ st_fs s' = <[p := File []]> (st_fs s))
  \/ (exists e, o = Ret (Err e) /\ st_fs s' = st_fs s).
Proof.
  unfold os_Create, bind, emit, ask, get_fs, put_fs, ret. simpl.
  destruct (create_denied env p); [intros [= <- <-]; simpl; eauto|].
  destruct (negb (parent_is_dir (st_fs s) p)); [intros [= <- <-]; simpl; eauto|].
  destruct (is_dir (st_fs s) p); intros [= <- <-]; simpl; eauto.
Qed.

Lemma io_Copy_spec (dst src : path) env s o s' :
  io_Copy dst src env s = (o, s') ->
  (o = Ret None /\ exists c, st_fs s !! src = Some (File c) /\
                             st_fs s' = write_fs (st_fs s) dst c)
  \/ (exists e, o = Ret (Some e) /\
        (st_fs s' = st_fs s \/
         exists c m, st_fs s !! src = Some (File c) /\
                     st_fs s' = write_fs (st_fs s) dst (firstn m c))).
Proof.
  unfold io_Copy, write_file, bind, emit, ask, get_fs, put_fs, ret. simpl.
  destruct (st_fs s !! src) as [[c|]|] eqn:E.
  - destruct (copy_fault env src) as [m|]; intros [= <- <-]; simpl.
    + right. eexists. split; [reflexivity|]. right. eauto.
    + left. eauto.
  - intros [= <- <-]. simpl. eauto.
  - intros [= <- <-]. simpl. eauto.
Qed.

(** ** The extraction loop *)

Lemma last_proto_in (l : list string) (n : string) :
  last_proto l = Some n -> In n l /\ is_proto n = true.
Proof.
  induction l as [|m l IH]; simpl; [discriminate|].
  destruct (last_proto l) as [k|].
  - intros [= <-]. destruct (IH eq_refl). auto.
  - destruct (is_proto m) eqn:Hm; [intros [= <-]; auto | discriminate].
Qed.

Lemma write_fs_fresh (fs : FS) (p : path) (c : list Byte.byte) :
  write_fs (<[p := File []]> fs) p c = <[p := File c]> fs.
Proof. unfold write_fs. rewrite lookup_insert_eq. simpl. apply insert_insert_eq. Qed.

Lemma copy_protobuf_loop_ok (svc : string) (spd pd : path) (names : list string)
    (env : Env) (s : St) :
  (forall n, In n names -> is_proto n = true -> join spd [n] <> canonical_proto svc pd) ->
  fst (copy_protobuf_loop svc spd pd names env s) = Ret None ->
  match last_proto names with
  | None => st_fs (snd (copy_protobuf_loop svc spd pd names env s)) = st_fs s
  | Some n => exists c, st_fs s !! join spd [n] = Some (File c) /\
      st_fs (snd (copy_protobuf_loop svc spd pd names env s))
      = <[canonical_proto svc pd := File c]> (st_fs s)
  end.
Proof.
  revert s. induction names as [|f rest IH]; intros s Hal Hok; [reflexivity|].
  simpl in Hok |- *. destruct (is_proto f) eqn:Hf; simpl in Hok |- *.
  - rewrite bind_unfold in Hok |- *.
    destruct (os_Open (join spd [f]) env s) as [o1 s1] eqn:E1.
    apply os_Open_spec in E1 as [Hfs1 [[-> _] | [e ->]]]; simpl in Hok |- *;
      [|discriminate].
    rewrite bind_unfold in Hok |- *.
    destruct (os_Create (canonical_proto svc pd) env s1) as [o2 s2] eqn:E2.
    apply os_Create_spec in E2 as [[-> Hfs2] | [e [-> _]]]; simpl in Hok |- *;
      [|discriminate].
    rewrite bind_unfold in Hok |- *.
    destruct (io_Copy (canonical_proto svc pd) (join spd [f]) env s2) as [o3 s3] eqn:E3.
    apply io_Copy_spec in E3 as [[-> [c [Hc Hfs3]]] | [e [-> _]]]; simpl in Hok |- *;
      [|discriminate].
    assert (Hsrc : join spd [f] <> canonical_proto svc pd) by (apply Hal; simpl; auto).
    rewrite Hfs2, lookup_insert_ne, Hfs1 in Hc by congruence.
    rewrite Hfs2, Hfs1, write_fs_fresh in Hfs3.
    assert (Hal' : forall n, In n rest -> is_proto n = true ->
                             join spd [n] <> canonical_proto svc pd)
      by (intros n Hn; apply Hal; simpl; auto).
    specialize (IH s3 Hal' Hok).
    destruct (last_proto rest) as [n|] eqn:Hl.
    + destruct IH as [c' [Hc' Hfs']]. apply last_proto_in in Hl as [Hn Hpn].
      exists c'. rewrite Hfs3, lookup_insert_ne in Hc' by (apply not_eq_sym, Hal'; auto).
      split; [exact Hc'|]. rewrite Hfs', Hfs3. apply insert_insert_eq.
    + exists c. split; [exact Hc|]. rewrite IH. exact Hfs3.
  - assert (Hal' : forall n, In n rest -> is_proto n = true ->
                             join spd [n] <> canonical_proto svc pd)
      by (intros n Hn; apply Hal; simpl; auto).
    specialize (IH s Hal' Hok). destruct (last_proto rest); exact IH.
Qed.

Lemma proto_sources_apart (fs : FS) (svc : string) (spd pd : path) (n : string) :
  wf_fsb fs = true -> normalb (svc ++ ".proto") = true -> spd <> pd ->
  In n (dir_listing fs spd) -> join spd [n] <> canonical_proto svc pd.
Proof.
  intros Hwf Hsvc Hne Hin. unfold canonical_proto.
  rewrite (join_normal spd n (listing_normal fs spd n Hwf Hin)), join_normal by exact Hsvc.
  intros Heq. apply app_inj_tail in Heq as [? _]. congruence.
Qed.

Lemma CopyProtobuf_unfold (svc : string) (sd pd : path) (priv : bool) env s :
  CopyProtobuf svc sd pd priv env s =
  let spd := service_proto_dir sd priv in
  let s1 := mkSt (st_fs s) (st_trace s ++ [EReadDir spd]) in
  if readdir_denied env spd
  then (Ret (Some ("failed to read service protobuf directory: " ++ "permission denied")%string), s1)
  else match st_fs s !! spd with
       | Some Dir => copy_protobuf_loop svc spd pd (dir_listing (st_fs s) spd) env s1
       | Some (File _) =>
           (Ret (Some ("failed to read service protobuf directory: " ++ "not a directory")%string), s1)
       | None =>
           (Ret (Some ("failed to read service protobuf directory: "
                       ++ "no such file or directory")%string), s1)
       end.
Proof.
  unfold CopyProtobuf. rewrite bind_unfold, os_ReadDir_eval. simpl.
  destruct (readdir_denied env _); [reflexivity|].
  destruct (st_fs s !! _) as [[]|]; reflexivity.
Qed.

(** ** C5 *)

(** C5: after [CopyProtobuf] returns nil, the filesystem differs from the
    one before at most at the canonical file [protoDir/<service>.proto]:
    when the listing of [proto/public] or [proto/private] (sorted by name,
    as [os.ReadDir] returns it) has no entry with the [.proto] extension,
    nothing changed; otherwise the canonical file holds the content of the
    last such entry.  Files without the extension, such as a README, are
    never copied. *)
Theorem CopyProtobuf_stages_last_proto (svc : string) (sd pd : path) (priv : bool)
    (env : Env) (s : St) :
  wf_fsb (st_fs s) = true ->
  normalb (svc ++ ".proto") = true ->
  service_proto_dir sd priv <> pd ->
  fst (CopyProtobuf svc sd pd priv env s) = Ret None ->
  let spd := service_proto_dir sd priv in
  let fs' := st_fs (snd (CopyProtobuf svc sd pd priv env s)) in
  match last_proto (dir_listing (st_fs s) spd) with
  | None => fs' = st_fs s
  | Some n => exists c, st_fs s !! join spd [n] = Some (File c) /\
                        fs' = <[canonical_proto svc pd := File c]> (st_fs s)
  end.
Proof.
  intros Hwf Hsvc Hne Hok spd fs'. subst spd fs'.
  rewrite CopyProtobuf_unfold in Hok |- *. simpl in Hok |- *.
  destruct (readdir_denied env _); [discriminate|].
  destruct (st_fs s !! _) as [[]|]; try discriminate.
  apply (copy_protobuf_loop_ok svc _ pd _ env
           (mkSt (st_fs s) (st_trace s ++ [EReadDir (service_proto_dir sd priv)]))).
  - intros n Hn _. exact (proto_sources_apart (st_fs s) svc _ pd n Hwf Hsvc Hne Hn).
  - exact Hok.
Qed.

(** The catalog checkout: [alpha.proto] and [service.proto] are both
    copied, the later one in name order survives, the README is ignored. *)
Lemma CopyProtobuf_stages_last_proto_witness :
  fst (CopyProtobuf "catalog" clone_dir staging_dir false sample_env (mkSt cloned_fs []))
    = Ret None /\
  dir_listing cloned_fs public_dir = ["README.md"; "alpha.proto"; "service.proto"] /\
  st_fs (snd (CopyProtobuf "catalog" clone_dir staging_dir false sample_env (mkSt cloned_fs [])))
    = <[staging_dir ++ ["catalog.proto"] := File (bytes "syntax")]> cloned_fs.
Proof.
  assert (Hok : fst (CopyProtobuf "catalog" clone_dir staging_dir false sample_env
                       (mkSt cloned_fs [])) = Ret None) by (vm_compute; reflexivity).
  assert (Hl : dir_listing cloned_fs public_dir = ["README.md"; "alpha.proto"; "service.proto"])
    by (vm_compute; reflexivity).
  split; [exact Hok|]. split; [exact Hl|].
  pose proof (CopyProtobuf_stages_last_proto "catalog" clone_dir staging_dir false
                sample_env (mkSt cloned_fs []) eq_refl eq_refl
                ltac:(vm_compute; discriminate) Hok) as H.
  cbv zeta in H. change (service_proto_dir clone_dir false) with public_dir in H.
  cbn [st_fs] in H. rewrite Hl in H.
  change (last_proto ["README.md"; "alpha.proto"; "service.proto"]) with (Some "service.proto")
    in H.
  destruct H as [c [Hc ->]].
  vm_compute in Hc. injection Hc as <-. reflexivity.
Defined.

(** What the extraction loop can leave at the canonical file, whatever its
    outcome: the old value, an empty file, or a prefix of a qualifying
    source; every other path is unchanged. *)
Lemma copy_protobuf_loop_frame (svc : string) (spd pd : path) (names : list string)
    (env : Env) (s : St) :
  (forall n, In n names -> is_proto n = true -> join spd [n] <> canonical_proto svc pd) ->
  let fs' := st_fs (snd (copy_protobuf_loop svc spd pd names env s)) in
  (forall k, k <> canonical_proto svc pd -> fs' !! k = st_fs s !! k) /\
  (fs' !! canonical_proto svc pd = st_fs s !! canonical_proto svc pd
   \/ fs' !! canonical_proto svc pd = Some (File [])
   \/ exists n c m, In n names /\ is_proto n = true /\
                    st_fs s !! join spd [n] = Some (File c) /\
                    fs' !! canonical_proto svc pd = Some (File (firstn m c))).
Proof.
  intros Hal fs'. subst fs'. revert s.
  induction names as [|f rest IH]; intros s; [split; auto|].
  assert (Hal' : forall n, In n rest -> is_proto n = true ->
                           join spd [n] <> canonical_proto svc pd)
    by (intros n Hn; apply Hal; simpl; auto).
  specialize (IH Hal').
  simpl. destruct (is_proto f) eqn:Hf; simpl.
  2:{ destruct (IH s) as [Hfr [Hc | [Hc | (n & c & m & Hn & Hp & Hsrc & Hc)]]];
      split; auto. right. right. exists n, c, m. simpl. auto. }
  assert (Hsf : join spd [f] <> canonical_proto svc pd) by (apply Hal; simpl; auto).
  rewrite bind_unfold.
  destruct (os_Open (join spd [f]) env s) as [o1 s1] eqn:E1.
  apply os_Open_spec in E1 as [Hfs1 [[-> _] | [e ->]]]; simpl;
    [|rewrite Hfs1; split; auto].
  rewrite bind_unfold.
  destruct (os_Create (canonical_proto svc pd) env s1) as [o2 s2] eqn:E2.
  apply os_Create_spec in E2 as [[-> Hfs2] | [e [-> Hfs2]]]; simpl;
    [|rewrite Hfs2, Hfs1; split; auto].
  rewrite bind_unfold.
  destruct (io_Copy (canonical_proto svc pd) (join spd [f]) env s2) as [o3 s3] eqn:E3.
  apply io_Copy_spec in E3 as [[-> [c [Hc Hfs3]]] | [e [-> [Hfs3 | (c & m & Hc & Hfs3)]]]];
    simpl.
  - rewrite Hfs2, lookup_insert_ne, Hfs1 in Hc by congruence.
    rewrite Hfs2, Hfs1, write_fs_fresh in Hfs3.
    destruct (IH s3) as [Hfr Hcan]. split.
    + intros k Hk. rewrite Hfr, Hfs3 by exact Hk. apply lookup_insert_ne. congruence.
    + right. right. rewrite Hfs3 in Hcan.
      destruct Hcan as [Hcan | [Hcan | (n & c' & m & Hn & Hp & Hsrc & Hcan)]].
      * exists f, c, (length c). rewrite firstn_all, Hcan, lookup_insert_eq.
        simpl. auto.
      * exists f, c, 0. rewrite Hcan. simpl. auto.
      * exists n, c', m. rewrite lookup_insert_ne in Hsrc by (apply not_eq_sym, Hal'; auto).
        simpl. auto.
  - rewrite Hfs3, Hfs2, Hfs1. split.
    + intros k Hk. apply lookup_insert_ne. congruence.
    + right. left. apply lookup_insert_eq.
  - rewrite Hfs2, lookup_insert_ne, Hfs1 in Hc by congruence.
    rewrite Hfs3, Hfs2, Hfs1, write_fs_fresh. split.
    + intros k Hk. apply lookup_insert_ne. congruence.
    + right. right. exists f, c, m. rewrite lookup_insert_eq. simpl. auto.
Qed.

(** ** C8 *)

(** C8 (counterexample): in the catalog checkout, [alpha.proto] is copied
    whole, then reading [service.proto] fails after two bytes.
    [CopyProtobuf] returns an error and leaves the canonical file holding
    "sy": it was absent before, and it is neither source. *)
Lemma CopyProtobuf_leaves_partial_file :
  let r := CopyProtobuf "catalog" clone_dir staging_dir false faulty_env (mkSt cloned_fs []) in
  fst r = Ret (Some "cannot copy protobuf file: input/output error") /\
  cloned_fs !! canonical_proto "catalog" staging_dir = None /\
  st_fs (snd r) !! canonical_proto "catalog" staging_dir = Some (File (bytes "sy")) /\
  cloned_fs !! (public_dir ++ ["alpha.proto"]) = Some (File (bytes "first")) /\
  cloned_fs !! (public_dir ++ ["service.proto"]) = Some (File (bytes "syntax")).
Proof. vm_compute. repeat split; reflexivity. Qed.

(** C8 (amended): when [CopyProtobuf] returns an error, no path other than
    the canonical file changed, and the canonical file holds its previous
    value, an empty file, or a prefix (possibly all) of a [.proto] entry
    of the listing: [os.Create] truncates it in place and a failed copy
    leaves what was written so far. *)
Theorem CopyProtobuf_error_state (svc : string) (sd pd : path) (priv : bool)
    (env : Env) (s : St) (e : string) :
  wf_fsb (st_fs s) = true ->
  normalb (svc ++ ".proto") = true ->
  service_proto_dir sd priv <> pd ->
  fst (CopyProtobuf svc sd pd priv env s) = Ret (Some e) ->
  let spd := service_proto_dir sd priv in
  let canon := canonical_proto svc pd in
  let fs' := st_fs (snd (CopyProtobuf svc sd pd priv env s)) in
  (forall k, k <> canon -> fs' !! k = st_fs s !! k) /\
  (fs' !! canon = st_fs s !! canon
   \/ fs' !! canon = Some (File [])
   \/ exists n c m, In n (dir_listing (st_fs s) spd) /\ is_proto n = true /\
                    st_fs s !! join spd [n] = Some (File c) /\
                    fs' !! canon = Some (File (firstn m c))).
Proof.
  intros Hwf Hsvc Hne _ spd canon fs'. subst spd canon fs'.
  rewrite CopyProtobuf_unfold. simpl.
  destruct (readdir_denied env _); [simpl; split; auto|].
  destruct (st_fs s !! _) as [[data|]|]; [simpl; split; auto | | simpl; split; auto].
  apply (copy_protobuf_loop_frame svc _ pd _ env
           (mkSt (st_fs s) (st_trace s ++ [EReadDir (service_proto_dir sd priv)]))).
  intros n Hn _. exact (proto_sources_apart (st_fs s) svc _ pd n Hwf Hsvc Hne Hn).
Qed.

(** The faulty copy: the canonical file is the two-byte prefix of
    [service.proto]. *)
Lemma CopyProtobuf_error_state_witness :
  fst (CopyProtobuf "catalog" clone_dir staging_dir false faulty_env (mkSt cloned_fs []))
    = Ret (Some "cannot copy protobuf file: input/output error") /\
  (forall k, k <> canonical_proto "catalog" staging_dir ->
   st_fs (snd (CopyProtobuf "catalog" clone_dir staging_dir false faulty_env
                 (mkSt cloned_fs []))) !! k = cloned_fs !! k).
Proof.
  assert (Hok : fst (CopyProtobuf "catalog" clone_dir staging_dir false faulty_env
                       (mkSt cloned_fs []))
                = Ret (Some "cannot copy protobuf file: input/output error"))
    by (vm_compute; reflexivity).
  split; [exact Hok|].
  exact (proj1 (CopyProtobuf_error_state "catalog" clone_dir staging_dir false faulty_env
                  (mkSt cloned_fs []) _ eq_refl eq_refl ltac:(vm_compute; discriminate) Hok)).
Defined.

Lemma copy_protobuf_loop_none (svc : string) (spd pd : path) (names : list string)
    (env : Env) (s : St) :
  (forall n, In n names -> is_proto n = false) ->
  copy_protobuf_loop svc spd pd names env s = (Ret None, s).
Proof.
  induction names as [|f rest IH]; intros H; [reflexivity|]. simpl.
  rewrite (H f (or_introl eq_refl)). simpl. apply IH. intros n Hn. apply H. simpl. auto.
Qed.

(** ** C10 *)

(** C10: when the selected directory exists, can be read, and has no entry
    with the [.proto] extension, [CopyProtobuf] returns nil and changes no
    file, so no canonical file is staged; every compiler invocation of
    [GenerateCode] still names [protoDir/<service>.proto] as its input, as
    its last argument. *)
Theorem CopyProtobuf_without_proto (svc : string) (sd pd : path) (priv : bool)
    (env : Env) (s : St) :
  readdir_denied env (service_proto_dir sd priv) = false ->
  st_fs s !! service_proto_dir sd priv = Some Dir ->
  (forall n, In n (dir_listing (st_fs s) (service_proto_dir sd priv)) -> is_proto n = false) ->
  let r := CopyProtobuf svc sd pd priv env s in
  fst r = Ret None /\ st_fs (snd r) = st_fs s /\
  (st_fs s !! canonical_proto svc pd = None -> st_fs (snd r) !! canonical_proto svc pd = None) /\
  (forall lang prog args, generate_cmd lang svc pd = Some (prog, args) ->
     last args = Some (path_to_string (canonical_proto svc pd))).
Proof.
  intros Hr Hd Hn r. subst r. rewrite CopyProtobuf_unfold. cbv zeta.
  rewrite Hr, Hd, copy_protobuf_loop_none by exact Hn. simpl.
  split; [reflexivity|]. split; [reflexivity|]. split; [auto|].
  intros lang prog args. unfold generate_cmd.
  destruct (String.eqb lang LanguageGo); [intros [= <- <-]; reflexivity|].
  destruct (String.eqb lang LanguageRuby); [intros [= <- <-]; reflexivity|].
  destruct (String.eqb lang LanguagePython); [intros [= <- <-]; reflexivity|].
  destruct (String.eqb lang LanguageJavascript); [intros [= <- <-]; reflexivity|].
  discriminate.
Qed.

(** A private directory holding only a README: nothing is staged, and the
    Go command still names the canonical file. *)
Lemma CopyProtobuf_without_proto_witness :
  let fs := <[clone_dir ++ ["proto"; "private"; "README.md"] := File (bytes "readme")]>
            (<[clone_dir ++ ["proto"; "private"] := Dir]> cloned_fs) in
  fst (CopyProtobuf "catalog" clone_dir staging_dir true sample_env (mkSt fs [])) = Ret None /\
  st_fs (snd (CopyProtobuf "catalog" clone_dir staging_dir true sample_env (mkSt fs []))) = fs /\
  (fs !! canonical_proto "catalog" staging_dir = None ->
   st_fs (snd (CopyProtobuf "catalog" clone_dir staging_dir true sample_env (mkSt fs [])))
     !! canonical_proto "catalog" staging_dir = None) /\
  (forall lang prog args, generate_cmd lang "catalog" staging_dir = Some (prog, args) ->
     last args = Some (path_to_string (canonical_proto "catalog" staging_dir))).
Proof.
  intros fs.
  apply (CopyProtobuf_without_proto "catalog" clone_dir staging_dir true sample_env
           (mkSt fs [])).
  - reflexivity.
  - vm_compute. reflexivity.
  - intros n Hn. vm_compute in Hn.
    destruct Hn as [<- | []]. reflexivity.
Defined.

(** ** The collection loop *)

Lemma output_file_normal (cwd : path) (out n : string) :
  normalb n = true -> output_file cwd out n = join cwd [out] ++ [n].
Proof. intros Hn. unfold output_file. rewrite join_two. apply join_normal, Hn. Qed.

Lemma output_file_inj (cwd : path) (out n m : string) :
  normalb n = true -> normalb m = true ->
  output_file cwd out n = output_file cwd out m -> n = m.
Proof.
  intros Hn Hm. rewrite !output_file_normal by assumption.
  intros Heq. apply app_inj_tail in Heq as [_ Heq]. exact Heq.
Qed.

Lemma output_file_not_source (pd cwd : path) (out n m : string) :
  normalb n = true -> normalb m = true -> join cwd [out] <> pd ->
  output_file cwd out n <> join pd [m].
Proof.
  intros Hn Hm Hne. rewrite (output_file_normal cwd out n Hn), (join_normal pd m Hm).
  intros Heq. apply app_inj_tail in Heq as [? _]. congruence.
Qed.

Lemma copy_generated_loop_ok (pd cwd : path) (out : string) (names : list string)
    (env : Env) (s : St) :
  (forall n, In n names -> normalb n = true) ->
  join cwd [out] <> pd ->
  fst (copy_generated_loop pd cwd out names env s) = Ret None ->
  let fs' := st_fs (snd (copy_generated_loop pd cwd out names env s)) in
  (forall n, In n names -> is_proto n = false ->
     exists c, st_fs s !! join pd [n] = Some (File c) /\
               fs' !! output_file cwd out n = Some (File c)) /\
  (forall k, (forall n, In n names -> is_proto n = false -> k <> output_file cwd out n) ->
     fs' !! k = st_fs s !! k).
Proof.
  intros Hnorm Hne. revert s.
  induction names as [|f rest IH]; intros s Hok fs'; subst fs'.
  { split; [intros n []|auto]. }
  assert (Hnorm' : forall n, In n rest -> normalb n = true)
    by (intros n Hn; apply Hnorm; simpl; auto).
  assert (Hf_n : normalb f = true) by (apply Hnorm; simpl; auto).
  specialize (IH Hnorm').
  simpl in Hok |- *. destruct (is_proto f) eqn:Hf; simpl in Hok |- *.
  { destruct (IH s Hok) as [H1 H2]. split.
    - intros n [<-|Hn] Hp; [congruence|auto].
    - intros k Hk. apply H2. intros n Hn Hp. apply Hk; simpl; auto. }
  assert (Hds : forall n m, In n (f :: rest) -> In m (f :: rest) ->
                            output_file cwd out n <> join pd [m])
    by (intros n m Hn Hm; apply output_file_not_source; auto).
  rewrite bind_unfold in Hok |- *.
  destruct (os_Open (join pd [f]) env s) as [o1 s1] eqn:E1.
  apply os_Open_spec in E1 as [Hfs1 [[-> _] | [e ->]]]; simpl in Hok |- *;
    [|discriminate].
  rewrite bind_unfold in Hok |- *.
  destruct (os_Create (output_file cwd out f) env s1) as [o2 s2] eqn:E2.
  apply os_Create_spec in E2 as [[-> Hfs2] | [e [-> _]]]; simpl in Hok |- *;
    [|discriminate].
  rewrite bind_unfold in Hok |- *.
  destruct (io_Copy (output_file cwd out f) (join pd [f]) env s2) as [o3 s3] eqn:E3.
  apply io_Copy_spec in E3 as [[-> [c [Hc Hfs3]]] | [e [-> _]]]; simpl in Hok |- *;
    [|discriminate].
  rewrite Hfs2, lookup_insert_ne, Hfs1 in Hc
    by (first [apply Hds | apply not_eq_sym, Hds]; simpl; auto).
  rewrite Hfs2, Hfs1, write_fs_fresh in Hfs3.
  destruct (IH s3 Hok) as [H1 H2]. split.
  - intros n Hn Hp.
    destruct (in_dec string_dec n rest) as [Hin|Hnin].
    + destruct (H1 n Hin Hp) as [c' [Hc' Hd']]. exists c'. split; [|exact Hd'].
      rewrite Hfs3, lookup_insert_ne in Hc' by (first [apply Hds | apply not_eq_sym, Hds]; simpl; auto).
      exact Hc'.
    + destruct Hn as [<-|Hn]; [|contradiction].
      exists c. split; [exact Hc|].
      rewrite H2, Hfs3 by (intros m Hm _ Heq; apply output_file_inj in Heq; subst;
                            auto; contradiction).
      apply lookup_insert_eq.
  - intros k Hk. rewrite H2 by (intros n Hn Hp; apply Hk; simpl; auto).
    rewrite Hfs3. apply lookup_insert_ne. apply not_eq_sym, Hk; simpl; auto.
Qed.

Lemma CopyGeneratedFiles_ok (pd : path) (out : string) (env : Env) (s : St) :
  fst (CopyGeneratedFiles pd out env s) = Ret None ->
  exists cwd, getwd env = Some cwd /\ st_fs s !! pd = Some Dir /\
    CopyGeneratedFiles pd out env s
    = copy_generated_loop pd cwd out (dir_listing (st_fs s) pd) env
        (mkSt (st_fs s) ((st_trace s ++ [EGetwd]) ++ [EReadDir pd])).
Proof.
  unfold CopyGeneratedFiles. rewrite bind_unfold.
  unfold os_Getwd, bind, emit, ask, ret. simpl.
  destruct (getwd env) as [cwd|]; [|discriminate].
  rewrite os_ReadDir_eval. simpl.
  destruct (readdir_denied env pd); [discriminate|].
  destruct (st_fs s !! pd) as [[]|]; [discriminate| |discriminate].
  intros _. exists cwd. auto.
Qed.

(** ** C6 *)

(** C6: after [CopyGeneratedFiles] returns nil, every entry of the staging
    listing without the [.proto] extension has been copied: its output
    file [cwd/outputPath/name] holds exactly the staged file's bytes; the
    output files named after [.proto] entries, the canonical file among
    them, are as they were; and no other path changed.  The output
    directory is assumed to be distinct from the staging directory. *)
Theorem CopyGeneratedFiles_copies (pd : path) (out : string) (cwd : path)
    (env : Env) (s : St) :
  getwd env = Some cwd ->
  wf_fsb (st_fs s) = true ->
  join cwd [out] <> pd ->
  fst (CopyGeneratedFiles pd out env s) = Ret None ->
  let names := dir_listing (st_fs s) pd in
  let fs' := st_fs (snd (CopyGeneratedFiles pd out env s)) in
  (forall n, In n names -> is_proto n = false ->
     exists c, st_fs s !! join pd [n] = Some (File c) /\
               fs' !! output_file cwd out n = Some (File c)) /\
  (forall n, In n names -> is_proto n = true ->
     fs' !! output_file cwd out n = st_fs s !! output_file cwd out n) /\
  (forall k, (forall n, In n names -> is_proto n = false -> k <> output_file cwd out n) ->
     fs' !! k = st_fs s !! k).
Proof.
  intros Hwd Hwf Hne Hok names fs'. subst names fs'.
  destruct (CopyGeneratedFiles_ok pd out env s Hok) as (cwd' & Hwd' & _ & Heq).
  rewrite Hwd in Hwd'. injection Hwd' as <-.
  rewrite Heq in Hok |- *.
  assert (Hnorm : forall n, In n (dir_listing (st_fs s) pd) -> normalb n = true)
    by (intros n; apply listing_normal, Hwf).
  destruct (copy_generated_loop_ok pd cwd out _ env _ Hnorm Hne Hok) as [H1 H2].
  simpl in H1, H2. split; [exact H1|]. split; [|exact H2].
  intros n Hn Hp. apply H2. intros m Hm Hpm Hoeq.
  apply output_file_inj in Hoeq; [|apply Hnorm; assumption ..]. congruence.
Qed.

(** Collecting the sample staging directory into [/home/out]: the two
    generated files are copied, [catalog.proto] is not. *)
Lemma CopyGeneratedFiles_copies_witness :
  fst (CopyGeneratedFiles staging_dir "./out" sample_env (mkSt generated_fs [])) = Ret None /\
  st_fs (snd (CopyGeneratedFiles staging_dir "./out" sample_env (mkSt generated_fs [])))
    !! output_file ["home"] "./out" "catalog.proto" = None.
Proof.
  assert (Hok : fst (CopyGeneratedFiles staging_dir "./out" sample_env (mkSt generated_fs []))
                = Ret None) by (vm_compute; reflexivity).
  split; [exact Hok|].
  destruct (CopyGeneratedFiles_copies staging_dir "./out" ["home"] sample_env
              (mkSt generated_fs []) eq_refl eq_refl ltac:(vm_compute; discriminate) Hok)
    as [_ [H2 _]].
  rewrite (H2 "catalog.proto"); [vm_compute; reflexivity | vm_compute; auto | reflexivity].
Defined.

(* ================================================================== *)
(** * Further properties of the code *)

(** ** The [.proto] test *)

Lemma list_ascii_of_string_append (a b : string) :
  list_ascii_of_string (String.append a b) = list_ascii_of_string a ++ list_ascii_of_string b.
Proof. induction a as [|c a IH]; simpl; [reflexivity|]. rewrite IH. reflexivity. Qed.

Lemma string_of_list_ascii_app (l1 l2 : list ascii) :
  string_of_list_ascii (l1 ++ l2)
  = String.append (string_of_list_ascii l1) (string_of_list_ascii l2).
Proof. induction l1 as [|c l1 IH]; simpl; [reflexivity|]. rewrite IH. reflexivity. Qed.

Lemma ext_rev_shape (rl acc : list ascii) :
  ext_rev rl acc = EmptyString \/
  exists r1 r2, rl = r1 ++ "."%char :: r2 /\
                ext_rev rl acc = string_of_list_ascii ("."%char :: rev r1 ++ acc).
Proof.
  revert acc. induction rl as [|c rl IH]; intros acc; simpl; [auto|].
  destruct (Ascii.eqb c "/"%char); [auto|].
  destruct (Ascii.eqb c "."%char) eqn:Hd.
  - apply Ascii.eqb_eq in Hd. subst c. right. exists [], rl. auto.
  - destruct (IH (c :: acc)) as [H | (r1 & r2 & -> & H)]; [auto|].
    right. exists (c :: r1), r2. split; [reflexivity|].
    rewrite H. simpl. rewrite <- app_assoc. reflexivity.
Qed.

(** X1: an entry passes the [filepath.Ext(name) == ".proto"] test exactly
    when its name ends in ".proto"; whatever comes before (dots, further
    extensions, nothing at all) does not matter. *)
Theorem is_proto_iff_suffix (n : string) :
  is_proto n = true <-> exists b, n = String.append b ".proto".
Proof.
  unfold is_proto, Ext, proto_ext. split.
  - intros H. apply String.eqb_eq in H.
    destruct (ext_rev_shape (rev (list_ascii_of_string n)) []) as [He | (r1 & r2 & Hr & He)];
      [rewrite He in H; discriminate|].
    rewrite H, app_nil_r in He.
    apply (f_equal list_ascii_of_string) in He.
    rewrite list_ascii_of_string_of_list_ascii in He. simpl in He.
    injection He as He. apply (f_equal (@rev ascii)) in He.
    rewrite rev_involutive in He. simpl in He. subst r1.
    exists (string_of_list_ascii (rev r2)).
    rewrite <- (string_of_list_ascii_of_string n), <- (rev_involutive (list_ascii_of_string n)),
      Hr, rev_app_distr. simpl. rewrite <- app_assoc, string_of_list_ascii_app. reflexivity.
  - intros [b ->]. rewrite list_ascii_of_string_append, rev_app_distr. simpl.
    reflexivity.
Qed.

(** ** The service tables *)

Lemma switch_case_In (s : string) (cases : list string) :
  switch_case s cases = true <-> In s cases.
Proof.
  unfold switch_case. rewrite existsb_exists. split.
  - intros [x [Hin Heq]]. apply String.eqb_eq in Heq. subst x. exact Hin.
  - intros Hin. exists s. split; [exact Hin | apply String.eqb_refl].
Qed.

(** X2: the services accepted under both visibilities are exactly catalog,
    category, exports, grants, organizations, query, references, sources
    and warehouses; every one of the seventeen declared service constants
    is accepted under at least one visibility. *)
Theorem service_tables (s : string) :
  (IsValidPublicService s && IsValidPrivateService s = true <->
   In s [ServiceCatalog; ServiceCategory; ServiceExports; ServiceGrants;
         ServiceOrganizations; ServiceQuery; ServiceReferences; ServiceSources;
         ServiceWarehouses]) /\
  Forall (fun x => IsValidPublicService x || IsValidPrivateService x = true)
    [ServiceAudit; ServiceAuthorization; ServiceCatalog; ServiceCategory; ServiceDataspec;
     ServiceExports; ServiceGrants; ServiceJabba; ServiceOrganizations; ServiceParser;
     ServiceQuery; ServiceReferences; ServiceSearch; ServiceSources; ServiceTaskrunner;
     ServiceUploads; ServiceWarehouses].
Proof.
  split; [|repeat constructor].
  rewrite andb_true_iff. unfold IsValidPublicService, IsValidPrivateService.
  rewrite !switch_case_In. split.
  - intros [H1 H2]. simpl in H1.
    repeat (destruct H1 as [<- | H1]; [simpl in H2 |- *; intuition discriminate |]).
    destruct H1.
  - intros H. simpl in H.
    repeat (destruct H as [<- | H]; [simpl; intuition |]). destruct H.
Qed.

(** ** The generator profiles *)

(** X3: java is the only language the validator accepts for which
    [GenerateCode] has no compiler command. *)
Theorem java_only_validated_without_profile (l svc : string) (dir : path) :
  IsValidLanguage l = true /\ generate_cmd l svc dir = None <-> l = LanguageJava.
Proof.
  split.
  - intros [H1 H2]. unfold IsValidLanguage in H1. rewrite switch_case_In in H1.
    simpl in H1.
    repeat (destruct H1 as [<- | H1]; [try reflexivity; discriminate H2 |]). destruct H1.
  - intros ->. split; reflexivity.
Qed.

(** ** The output location *)



(** ** What the filesystem stages change *)

Lemma write_fs_other (fs : FS) (p k : path) (data : list Byte.byte) :
  k <> p -> write_fs fs p data !! k = fs !! k.
Proof.
  intros Hk. unfold write_fs. destruct (fs !! p) as [[d|]|]; try reflexivity.
  apply lookup_insert_ne. congruence.
Qed.

Lemma copy_protobuf_loop_only_canon (svc : string) (spd pd : path) (names : list string)
    (env : Env) (s : St) (k : path) :
  k <> canonical_proto svc pd ->
  st_fs (snd (copy_protobuf_loop svc spd pd names env s)) !! k = st_fs s !! k.
Proof.
  intros Hk. revert s. induction names as [|f rest IH]; intros s; [reflexivity|].
  simpl. destruct (is_proto f); simpl; [|apply IH].
  rewrite bind_unfold.
  destruct (os_Open (join spd [f]) env s) as [o1 s1] eqn:E1.
  apply os_Open_spec in E1 as [Hfs1 [[-> _] | [e ->]]]; simpl; [|rewrite Hfs1; reflexivity].
  rewrite bind_unfold.
  destruct (os_Create (canonical_proto svc pd) env s1) as [o2 s2] eqn:E2.
  apply os_Create_spec in E2 as [[-> Hfs2] | [e [-> Hfs2]]]; simpl;
    [|rewrite Hfs2, Hfs1; reflexivity].
  assert (H2 : st_fs s2 !! k = st_fs s !! k)
    by (rewrite Hfs2, lookup_insert_ne, Hfs1 by congruence; reflexivity).
  rewrite bind_unfold.
  destruct (io_Copy (canonical_proto svc pd) (join spd [f]) env s2) as [o3 s3] eqn:E3.
  apply io_Copy_spec in E3 as [[-> [c [_ Hfs3]]] | [e [-> [Hfs3 | (c & m & _ & Hfs3)]]]];
    simpl.
  - rewrite IH, Hfs3, write_fs_other by exact Hk. exact H2.
  - rewrite Hfs3. exact H2.
  - rewrite Hfs3, write_fs_other by exact Hk. exact H2.
Qed.

(** X5: whatever its outcome, [CopyProtobuf] changes no path other than
    the canonical file [protoDir/<service>.proto]: the service checkout and
    everything else stay as they were. *)
Theorem CopyProtobuf_only_canonical (svc : string) (sd pd : path) (priv : bool)
    (env : Env) (s : St) (k : path) :
  k <> canonical_proto svc pd ->
  st_fs (snd (CopyProtobuf svc sd pd priv env s)) !! k = st_fs s !! k.
Proof.
  intros Hk. rewrite CopyProtobuf_unfold. simpl.
  destruct (readdir_denied env _); [reflexivity|].
  destruct (st_fs s !! _) as [[]|]; [reflexivity | | reflexivity].
  rewrite copy_protobuf_loop_only_canon by exact Hk. reflexivity.
Qed.

(** The faulty copy leaves the source it failed on untouched. *)
Lemma CopyProtobuf_only_canonical_witness :
  st_fs (snd (CopyProtobuf "catalog" clone_dir staging_dir false faulty_env (mkSt cloned_fs [])))
    !! (public_dir ++ ["service.proto"]) = Some (File (bytes "syntax")).
Proof.
  etransitivity;
    [apply (CopyProtobuf_only_canonical "catalog" clone_dir staging_dir false faulty_env
              (mkSt cloned_fs []) (public_dir ++ ["service.proto"]));
     vm_compute; discriminate|].
  vm_compute. reflexivity.
Defined.

Lemma copy_generated_loop_frame (pd cwd : path) (out : string) (names : list string)
    (env : Env) (s : St) (k : path) :
  (forall n, In n names -> is_proto n = false -> k <> output_file cwd out n) ->
  st_fs (snd (copy_generated_loop pd cwd out names env s)) !! k = st_fs s !! k.
Proof.
  revert s. induction names as [|f rest IH]; intros s Hk; [reflexivity|].
  assert (Hk' : forall n, In n rest -> is_proto n = false -> k <> output_file cwd out n)
    by (intros n Hn; apply Hk; simpl; auto).
  simpl. destruct (is_proto f) eqn:Hf; simpl; [apply IH, Hk'|].
  assert (Hkf : k <> output_file cwd out f) by (apply Hk; simpl; auto).
  rewrite bind_unfold.
  destruct (os_Open (join pd [f]) env s) as [o1 s1] eqn:E1.
  apply os_Open_spec in E1 as [Hfs1 [[-> _] | [e ->]]]; simpl; [|rewrite Hfs1; reflexivity].
  rewrite bind_unfold.
  destruct (os_Create (output_file cwd out f) env s1) as [o2 s2] eqn:E2.
  apply os_Create_spec in E2 as [[-> Hfs2] | [e [-> Hfs2]]]; simpl;
    [|rewrite Hfs2, Hfs1; reflexivity].
  assert (H2 : st_fs s2 !! k = st_fs s !! k)
    by (rewrite Hfs2, lookup_insert_ne, Hfs1 by congruence; reflexivity).
  rewrite bind_unfold.
  destruct (io_Copy (output_file cwd out f) (join pd [f]) env s2) as [o3 s3] eqn:E3.
  apply io_Copy_spec in E3 as [[-> [c [_ Hfs3]]] | [e [-> [Hfs3 | (c & m & _ & Hfs3)]]]];
    simpl.
  - rewrite IH, Hfs3, write_fs_other by assumption. exact H2.
  - rewrite Hfs3. exact H2.
  - rewrite Hfs3, write_fs_other by exact Hkf. exact H2.
Qed.

(** X6: whatever its outcome, [CopyGeneratedFiles] changes only the output
    files [cwd/outputPath/name] of the entries of the staging listing
    without the [.proto] extension; when the working directory is unknown it
    changes nothing. *)
Theorem CopyGeneratedFiles_only_outputs (pd : path) (out : string) (env : Env) (s : St)
    (k : path) :
  (forall cwd n, getwd env = Some cwd -> In n (dir_listing (st_fs s) pd) ->
                 is_proto n = false -> k <> output_file cwd out n) ->
  st_fs (snd (CopyGeneratedFiles pd out env s)) !! k = st_fs s !! k.
Proof.
  intros Hk. unfold CopyGeneratedFiles. rewrite bind_unfold.
  unfold os_Getwd, bind, emit, ask, ret. simpl.
  destruct (getwd env) as [cwd|] eqn:Hwd; [|reflexivity].
  rewrite os_ReadDir_eval. simpl.
  destruct (readdir_denied env pd); [reflexivity|].
  destruct (st_fs s !! pd) as [[]|]; [reflexivity | | reflexivity].
  rewrite copy_generated_loop_frame; [reflexivity|]. intros n Hn Hp. apply Hk; auto.
Qed.

(** Collecting the sample staging directory leaves the staged proto in
    place. *)
Lemma CopyGeneratedFiles_only_outputs_witness :
  st_fs (snd (CopyGeneratedFiles staging_dir "./out" sample_env (mkSt generated_fs [])))
    !! (staging_dir ++ ["catalog.proto"]) = Some (File (bytes "syntax")).
Proof.
  etransitivity;
    [apply (CopyGeneratedFiles_only_outputs staging_dir "./out" sample_env
              (mkSt generated_fs []) (staging_dir ++ ["catalog.proto"]))|].
  2:{ vm_compute. reflexivity. }
  intros cwd n Hwd. simpl in Hwd. injection Hwd as <-.
  intros Hn. vm_compute in Hn. intros _.
  destruct Hn as [<- | [<- | [<- | []]]]; vm_compute; discriminate.
Defined.

(** X7: whatever its outcome, [CleanUpDirectories d] changes no path
    outside [d]. *)
Theorem CleanUpDirectories_only_under (d : path) (env : Env) (s : St) (k : path) :
  prefixb d k = false ->
  st_fs (snd (CleanUpDirectories d env s)) !! k = st_fs s !! k.
Proof.
  intros Hk. rewrite CleanUpDirectories_fs.
  destruct (st_fs s !! k) as [x|] eqn:Hx.
  - apply map_lookup_filter_Some. split; [exact Hx|].
    simpl. unfold keep_after_remove. rewrite Hk. reflexivity.
  - apply map_lookup_filter_None. left. exact Hx.
Qed.

(** Removing the sample workspace leaves the home directory. *)
Lemma CleanUpDirectories_only_under_witness :
  st_fs (snd (CleanUpDirectories sample_tmp locked_env (mkSt locked_fs [])))
    !! ["home"] = Some Dir.
Proof.
  etransitivity;
    [apply (CleanUpDirectories_only_under sample_tmp locked_env (mkSt locked_fs []) ["home"]);
     reflexivity|].
  vm_compute. reflexivity.
Defined.

(** ** The subprocess stages *)

(** X8: [CloneService] runs [git clone git@github.com:asmahood/<service>.git
    <dir>/<service>]; it returns the checkout path [<dir>/<service>]
    exactly when git exits with status 0, and otherwise an error to its
    caller.  The filesystem afterwards is the one git left, or the old one
    when git could not be started. *)
Theorem CloneService_result (svc : string) (dir : path) (env : Env) (s : St) :
  normalb svc = true ->
  let args := ["clone"; ("git@github.com:asmahood/" ++ svc ++ ".git")%string;
               path_to_string (dir ++ [svc])] in
  (fst (CloneService svc dir env s) = Ret (Ok (dir ++ [svc])) <->
   exists fs' o e, exec env "git" args (st_fs s) = Exited 0 fs' o e) /\
  (forall p, fst (CloneService svc dir env s) = Ret (Ok p) -> p = dir ++ [svc]) /\
  st_fs (snd (CloneService svc dir env s))
  = match exec env "git" args (st_fs s) with
    | StartFailed _ => st_fs s
    | Exited _ fs' _ _ => fs'
    end.
Proof.
  intros Hn args. subst args. unfold CloneService. rewrite (join_normal dir svc Hn).
  unfold exec_Cmd, bind, emit, ask, get_fs, put_fs, ret. simpl.
  destruct (exec env "git" _ (st_fs s)) as [e|st fs' o e]; simpl.
  - split; [split; [discriminate | intros (? & ? & ? & H); discriminate]|].
    split; [discriminate | reflexivity].
  - destruct (Z.eqb st 0) eqn:Hst; simpl.
    + apply Z.eqb_eq in Hst. subst st. split; [split; eauto|].
      split; [intros p [= <-]; reflexivity | reflexivity].
    + split; [split; [discriminate|] | split; [discriminate | reflexivity]].
      intros (fs'' & o' & e' & [= -> _ _ _]). discriminate.
Qed.

(** The sample checkout of catalog succeeds. *)
Lemma CloneService_result_witness :
  fst (CloneService "catalog" sample_tmp sample_env (mkSt sample_fs []))
  = Ret (Ok (sample_tmp ++ ["catalog"])).
Proof.
  apply (proj2 (proj1 (CloneService_result "catalog" sample_tmp sample_env (mkSt sample_fs [])
                         eq_refl))).
  eexists _, _, _. reflexivity.
Defined.

(** X9: for a language with a compiler command, [GenerateCode] runs
    protoc, and returns nil exactly when protoc exits with status 0; the
    filesystem afterwards is the one protoc left, or the old one when it
    could not be started. *)
Theorem GenerateCode_result (lang svc : string) (dir : path) (prog : string)
    (args : list string) (env : Env) (s : St) :
  generate_cmd lang svc dir = Some (prog, args) ->
  prog = "protoc" /\
  (fst (GenerateCode lang svc dir env s) = Ret None <->
   exists fs' o e, exec env prog args (st_fs s) = Exited 0 fs' o e) /\
  st_fs (snd (GenerateCode lang svc dir env s))
  = match exec env prog args (st_fs s) with
    | StartFailed _ => st_fs s
    | Exited _ fs' _ _ => fs'
    end.
Proof.
  intros H. split.
  { unfold generate_cmd in H.
    destruct (String.eqb lang LanguageGo); [injection H as <- _; reflexivity|].
    destruct (String.eqb lang LanguageRuby); [injection H as <- _; reflexivity|].
    destruct (String.eqb lang LanguagePython); [injection H as <- _; reflexivity|].
    destruct (String.eqb lang LanguageJavascript); [injection H as <- _; reflexivity|].
    discriminate. }
  unfold GenerateCode. rewrite H.
  unfold exec_Cmd, logf, bind, emit, ask, get_fs, put_fs, ret. simpl.
  destruct (exec env prog args (st_fs s)) as [e|st fs' o e]; simpl.
  - split; [split; [discriminate | intros (? & ? & ? & H'); discriminate] | reflexivity].
  - destruct (bool_decide (o = [])); destruct (bool_decide (e = [])); simpl;
      (destruct (Z.eqb st 0) eqn:Hst; simpl;
       [apply Z.eqb_eq in Hst; subst st; split; [split; eauto | reflexivity]
       | split; [split; [discriminate | intros (? & ? & ? & [= -> _ _ _]); discriminate]
                | reflexivity]]).
Qed.

(** Compiling the staged catalog proto for Go succeeds. *)
Lemma GenerateCode_result_witness :
  fst (GenerateCode "golang" "catalog" staging_dir sample_env (mkSt cloned_fs [])) = Ret None.
Proof.
  apply (proj2 (proj1 (proj2 (GenerateCode_result "golang" "catalog" staging_dir "protoc"
                                _ sample_env (mkSt cloned_fs []) eq_refl)))).
  eexists _, _, _. reflexivity.
Defined.

(** ** Whole runs *)

Lemma bind_ret_inv {A B} (m : M A) (k : A -> M B) env s (b : B) s'' :
  bind m k env s = (Ret b, s'') ->
  exists a s', m env s = (Ret a, s') /\ k a env s' = (Ret b, s'').
Proof. unfold bind. destruct (m env s) as [[a|c] s']; [eauto | discriminate]. Qed.

Lemma with_defer_ret_inv (d k : M unit) env s (b : unit) s'' :
  with_defer d k env s = (Ret b, s'') ->
  exists a s', k env s = (Ret a, s') /\ d env s' = (Ret b, s'').
Proof. unfold with_defer. destruct (k env s) as [[a|c] s']; [eauto | discriminate]. Qed.

Lemma fatal_not_ret {A} (msg : string) env s (b : A) s'' : fatal msg env s <> (Ret b, s'').
Proof. unfold fatal, logf, emit, bind. simpl. discriminate. Qed.

Lemma then_fatal_not_ret {A B} (m : M A) (msg : string) env s (b : B) s'' :
  (m ;; fatal msg) env s <> (Ret b, s'').
Proof.
  intros H. apply bind_ret_inv in H as (a & s' & _ & H). exact (fatal_not_ret _ _ _ _ _ H).
Qed.

Lemma os_MkdirTemp_ok (dir : path) (pat : string) env s (d : path) s' :
  os_MkdirTemp dir pat env s = (Ret (Ok d), s') -> d = dir ++ [String.append pat (temp_suffix env)].
Proof.
  unfold os_MkdirTemp, bind, ask, get_fs, put_fs, emit, ret. simpl.
  destruct (_ || _); simpl; [discriminate | intros [= <- _]; reflexivity].
Qed.

Lemma GenerateCode_ok_profile (lang svc : string) (dir : path) env s s' :
  GenerateCode lang svc dir env s = (Ret None, s') -> generate_cmd lang svc dir <> None.
Proof.
  unfold GenerateCode. destruct (generate_cmd lang svc dir); [discriminate|].
  unfold ret. intros [=].
Qed.

Lemma generate_cmd_languages (lang svc : string) (dir : path) :
  generate_cmd lang svc dir <> None ->
  In lang [LanguageGo; LanguageRuby; LanguagePython; LanguageJavascript].
Proof.
  unfold generate_cmd.
  destruct (String.eqb lang LanguageGo) eqn:E1; [apply String.eqb_eq in E1; simpl; auto|].
  destruct (String.eqb lang LanguageRuby) eqn:E2; [apply String.eqb_eq in E2; simpl; auto|].
  destruct (String.eqb lang LanguagePython) eqn:E3; [apply String.eqb_eq in E3; simpl; auto|].
  destruct (String.eqb lang LanguageJavascript) eqn:E4;
    [apply String.eqb_eq in E4; simpl; auto|].
  intros H. contradiction.
Qed.

(** X10: when [Run] returns normally, the request passed the three gates,
    its language is one of the four with a compiler command (so never
    java), every stage succeeded, and the deferred cleanup left nothing
    under the workspace [os.TempDir()/client-generation-<random>]. *)
Theorem Run_returns_only_when_complete (req : Request) (env : Env) (s : St) :
  fst (Run req env s) = Ret tt ->
  valid_request req = true /\
  In (language req) [LanguageGo; LanguageRuby; LanguagePython; LanguageJavascript] /\
  (forall k x, st_fs (snd (Run req env s)) !! k = Some x ->
     prefixb (temp_dir env ++ [String.append "client-generation-" (temp_suffix env)]) k
     = false).
Proof.
  intros H. destruct (Run req env s) as [o s''] eqn:E. simpl in H |- *. subst o.
  unfold Run in E.
  apply bind_ret_inv in E as (u1 & s1 & _ & E). cbv beta zeta in E.
  apply bind_ret_inv in E as (u2 & s2 & E2 & E). cbv beta zeta in E.
  destruct (IsValidLanguage (language req)) eqn:HL; cbn [negb] in E2;
    [|exfalso; exact (fatal_not_ret _ _ _ _ _ E2)].
  apply bind_ret_inv in E as (u3 & s3 & _ & E). cbv beta zeta in E.
  apply bind_ret_inv in E as (u4 & s4 & E4 & E). cbv beta zeta in E.
  destruct (negb (private req) && negb (IsValidPublicService (service req))) eqn:HP;
    [exfalso; exact (fatal_not_ret _ _ _ _ _ E4)|].
  apply bind_ret_inv in E as (u5 & s5 & _ & E). cbv beta zeta in E.
  apply bind_ret_inv in E as (u6 & s6 & E6 & E). cbv beta zeta in E.
  destruct (private req && negb (IsValidPrivateService (service req))) eqn:HQ;
    [exfalso; exact (fatal_not_ret _ _ _ _ _ E6)|].
  apply bind_ret_inv in E as (env' & s7 & E7 & E). unfold ask in E7.
  injection E7 as <- <-. cbv beta zeta in E.
  apply bind_ret_inv in E as (r & s8 & E8 & E). cbv beta zeta in E.
  destruct r as [tmp|e]; [|exfalso; exact (fatal_not_ret _ _ _ _ _ E)].
  apply os_MkdirTemp_ok in E8. subst tmp.
  apply with_defer_ret_inv in E as (u9 & s9 & E9 & Ec).
  apply bind_ret_inv in E9 as (u10 & s10 & _ & E9). cbv beta zeta in E9.
  apply bind_ret_inv in E9 as (err & s11 & _ & E9). cbv beta zeta in E9.
  destruct err; [exfalso; exact (then_fatal_not_ret _ _ _ _ _ _ E9)|].
  apply bind_ret_inv in E9 as (r & s12 & _ & E9). cbv beta zeta in E9.
  destruct r as [sd|e]; [|exfalso; exact (then_fatal_not_ret _ _ _ _ _ _ E9)].
  apply bind_ret_inv in E9 as (err & s13 & _ & E9). cbv beta zeta in E9.
  destruct err; [exfalso; exact (then_fatal_not_ret _ _ _ _ _ _ E9)|].
  apply bind_ret_inv in E9 as (err & s14 & EG & E9). cbv beta zeta in E9.
  destruct err; [exfalso; exact (then_fatal_not_ret _ _ _ _ _ _ E9)|].
  split; [|split].
  - unfold valid_request. rewrite HL.
    destruct (private req), (IsValidPublicService (service req)),
      (IsValidPrivateService (service req)); simpl in *; congruence.
  - exact (generate_cmd_languages _ _ _ (GenerateCode_ok_profile _ _ _ _ _ _ EG)).
  - intros k x Hk.
    pose proof (CleanUpDirectories_outcome
                  (temp_dir env ++ [String.append "client-generation-" (temp_suffix env)])
                  env s9) as Ho.
    pose proof (CleanUpDirectories_fs
                  (temp_dir env ++ [String.append "client-generation-" (temp_suffix env)])
                  env s9) as Hf.
    rewrite Ec in Ho, Hf. simpl in Ho, Hf.
    destruct (removable env (st_fs s9) _) as [|? ?]; [|discriminate].
    rewrite Hf in Hk. exact (filter_keep_clears _ _ k x Hk).
Qed.

(** The sample Go client for catalog is generated, and the workspace is
    gone afterwards. *)
Lemma Run_returns_only_when_complete_witness :
  fst (run sample_env (sample_req "golang" "catalog" false) sample_fs) = Ret tt /\
  In "golang" [LanguageGo; LanguageRuby; LanguagePython; LanguageJavascript] /\
  (forall k x,
     st_fs (snd (run sample_env (sample_req "golang" "catalog" false) sample_fs)) !! k = Some x ->
     prefixb sample_tmp k = false).
Proof.
  assert (Hok : fst (run sample_env (sample_req "golang" "catalog" false) sample_fs) = Ret tt)
    by (vm_compute; reflexivity).
  destruct (Run_returns_only_when_complete (sample_req "golang" "catalog" false) sample_env
              (mkSt sample_fs []) Hok) as (_ & Hin & Hclean).
  split; [exact Hok|]. split; [exact Hin|]. exact Hclean.
Defined.










Lemma copy_generated_loop_none (pd cwd : path) (out : string) (names : list string)
    (env : Env) (s : St) :
  (forall n, In n names -> is_proto n = true) ->
  copy_generated_loop pd cwd out names env s = (Ret None, s).
Proof.
  induction names as [|f rest IH]; intros H; [reflexivity|]. simpl.
  rewrite (H f (or_introl eq_refl)). apply IH. intros n Hn. apply H. simpl. auto.
Qed.

(** X12: when every entry of the staging directory has the [.proto]
    extension (the compiler produced nothing), [CopyGeneratedFiles]
    returns nil and changes nothing: an empty generation is not reported
    at the collection stage. *)
Theorem CopyGeneratedFiles_nothing_generated (pd : path) (out : string) (cwd : path)
    (env : Env) (s : St) :
  getwd env = Some cwd ->
  readdir_denied env pd = false ->
  st_fs s !! pd = Some Dir ->
  (forall n, In n (dir_listing (st_fs s) pd) -> is_proto n = true) ->
  fst (CopyGeneratedFiles pd out env s) = Ret None /\
  st_fs (snd (CopyGeneratedFiles pd out env s)) = st_fs s.
Proof.
  intros Hwd Hr Hd Hn. unfold CopyGeneratedFiles. rewrite bind_unfold.
  unfold os_Getwd, bind, emit, ask, ret. simpl. rewrite Hwd.
  rewrite os_ReadDir_eval. simpl. rewrite Hr, Hd.
  rewrite copy_generated_loop_none by exact Hn. split; reflexivity.
Qed.

(** A staging directory holding only the staged proto. *)
Lemma CopyGeneratedFiles_nothing_generated_witness :
  fst (CopyGeneratedFiles staging_dir "./out" sample_env (mkSt locked_fs [])) = Ret None /\
  st_fs (snd (CopyGeneratedFiles staging_dir "./out" sample_env (mkSt locked_fs []))) = locked_fs.
Proof.
  apply (CopyGeneratedFiles_nothing_generated staging_dir "./out" ["home"] sample_env
           (mkSt locked_fs [])); [reflexivity | reflexivity | vm_compute; reflexivity |].
  intros n Hn. vm_compute in Hn. destruct Hn as [<- | []]. reflexivity.
Defined.

(** ** The subprocesses of a run *)

Lemma so_bind (req : Request) {A B} (m : M A) (k : A -> M B) :
  starts_only req m -> (forall a, starts_only req (k a)) -> starts_only req (bind m k).
Proof.
  intros Hm Hk.
  apply (runs_to_bind m k (fun _ tr => Forall (allowed_exec req) tr)
           (fun _ _ tr => Forall (allowed_exec req) tr)); [exact Hm | exact Hk | |].
  - intros a tr1 o tr2 H1 H2. apply Forall_app. auto.
  - intros c tr1 H. exact H.
Qed.

Lemma so_emit (req : Request) (e : event) : allowed_exec req e -> starts_only req (emit e).
Proof. intros H env s. exists [e]. simpl. auto. Qed.

Lemma so_pure (req : Request) {A} (m : M A) :
  (forall env s, st_trace (snd (m env s)) = st_trace s) -> starts_only req m.
Proof. intros H env s. exists []. rewrite app_nil_r. auto. Qed.

Lemma so_fatal (req : Request) {A} (msg : string) : starts_only req (@fatal A msg).
Proof. intros env s. exists [ELog msg]. simpl. split; [reflexivity | repeat constructor]. Qed.

Lemma so_with_defer (req : Request) (d k : M unit) :
  starts_only req d -> starts_only req k -> starts_only req (with_defer d k).
Proof.
  intros Hd Hk env s. unfold with_defer.
  destruct (Hk env s) as [tr1 [Ht1 H1]].
  destruct (k env s) as [[a|c] s'] eqn:E; simpl in *.
  - destruct (Hd env s') as [tr2 [Ht2 H2]]. exists (tr1 ++ tr2).
    rewrite Ht2, Ht1, app_assoc. split; [reflexivity|]. apply Forall_app. auto.
  - exists tr1. auto.
Qed.

Ltac so_auto :=
  repeat match goal with
  | |- starts_only _ (bind _ _) => apply so_bind; [| intros ?; cbv beta zeta]
  | |- starts_only _ (with_defer _ _) => apply so_with_defer
  | |- starts_only _ (emit _) => apply so_emit; try exact I
  | |- starts_only _ (fatal _) => apply so_fatal
  | |- starts_only _ (ret _) => apply so_pure; reflexivity
  | |- starts_only _ ask => apply so_pure; reflexivity
  | |- starts_only _ get_fs => apply so_pure; reflexivity
  | |- starts_only _ (put_fs _) => apply so_pure; reflexivity
  | |- starts_only _ (match ?x with _ => _ end) => destruct x
  | |- starts_only _ (os_ReadDir _) => unfold os_ReadDir
  | |- starts_only _ (os_Open _) => unfold os_Open
  | |- starts_only _ (os_Create _) => unfold os_Create
  | |- starts_only _ (io_Copy _ _) => unfold io_Copy
  | |- starts_only _ (write_file _ _) => unfold write_file
  | |- starts_only _ (os_Mkdir _) => unfold os_Mkdir
  | |- starts_only _ (os_MkdirTemp _ _) => unfold os_MkdirTemp
  | |- starts_only _ os_Getwd => unfold os_Getwd
  | |- starts_only _ (os_RemoveAll _) => unfold os_RemoveAll
  | |- starts_only _ (logf _) => unfold logf
  | |- starts_only _ (CleanUpDirectories _) => unfold CleanUpDirectories
  end.

Lemma so_copy_protobuf_loop (req : Request) svc spd pd files :
  starts_only req (copy_protobuf_loop svc spd pd files).
Proof.
  induction files as [|f rest IH]; simpl; so_auto; exact IH.
Qed.

Lemma so_copy_generated_loop (req : Request) pd cwd out files :
  starts_only req (copy_generated_loop pd cwd out files).
Proof.
  induction files as [|f rest IH]; simpl; so_auto; exact IH.
Qed.

Lemma so_CloneService (req : Request) (dir : path) :
  starts_only req (CloneService (service req) dir).
Proof.
  unfold CloneService, exec_Cmd. so_auto. left. split; [reflexivity|]. eexists. reflexivity.
Qed.

Lemma so_GenerateCode (req : Request) (dir : path) :
  starts_only req (GenerateCode (language req) (service req) dir).
Proof.
  unfold GenerateCode. destruct (generate_cmd _ _ dir) as [[prog args]|] eqn:E; so_auto.
  - unfold exec_Cmd. so_auto. right. exists dir. exact E.
Qed.

Lemma so_Run (req : Request) : starts_only req (Run req).
Proof.
  unfold Run. so_auto.
  all: first [ apply so_CloneService | apply so_GenerateCode
             | unfold CopyProtobuf; so_auto; apply so_copy_protobuf_loop
             | unfold CopyGeneratedFiles; so_auto; apply so_copy_generated_loop ].
Qed.

(** X13: the only programs a run starts are git, cloning the requested
    service's repository [git@github.com:asmahood/<service>.git], and the
    compiler command of the requested language. *)
Theorem Run_starts_only_clone_and_compiler (env : Env) (req : Request) (fs : FS)
    (prog : string) (args : list string) :
  In (EExec prog args) (st_trace (snd (run env req fs))) ->
  (prog = "git"%string /\
   exists dst, args = ["clone"; ("git@github.com:asmahood/" ++ service req ++ ".git")%string; dst])
  \/ exists dir, generate_cmd (language req) (service req) dir = Some (prog, args).
Proof.
  intros Hin. destruct (so_Run req env (mkSt fs [])) as [tr [Ht Hall]].
  unfold run in Hin. rewrite Ht in Hin. simpl in Hin.
  rewrite Forall_forall in Hall. apply list_elem_of_In in Hin.
  exact (Hall _ Hin).
Qed.

(** The sample Go run clones catalog. *)
Lemma Run_starts_only_clone_and_compiler_witness :
  ("git" = "git"%string /\
   exists dst, ["clone"; "git@github.com:asmahood/catalog.git";
                path_to_string (sample_tmp ++ ["catalog"])]
               = ["clone"; "git@github.com:asmahood/catalog.git"; dst])
  \/ exists dir, generate_cmd "golang" "catalog" dir
                 = Some ("git"%string, ["clone"; "git@github.com:asmahood/catalog.git";
                                        path_to_string (sample_tmp ++ ["catalog"])]).
Proof.
  apply (Run_starts_only_clone_and_compiler sample_env (sample_req "golang" "catalog" false)
           sample_fs).
  vm_compute. repeat (first [left; reflexivity | right]).
Defined.
